(** * MapSystem: grid, placement check and cached A* pathfinding

    A shallow embedding of [src/js/game/systems/map.js] (classes [PathNode]
    and [MapSystem]) and the properties of its grid/pathing core.

    Modelling conventions.
    - Grid coordinates and cell codes are JavaScript numbers holding integers:
      they are [Z].  The grid dimensions size two arrays, so they are [nat].
    - [this.grid] is an array of rows: [list (list Z)], read and written by
      index.
    - [this.pathCache] is a [Map] keyed by the template string
      [`${startX},${startY}_${endX},${endY}`]: a [gmap string _] keyed by the
      same string, the numbers printed in decimal.  A cached [null] (no path)
      is the value [None] stored under the key.
    - [closedSet] is a [Set] of strings [`${x},${y}`]: a [gset string].
    - The rendering context, the cell size, the colours and the opaque
      [entity] arguments take no part in the grid logic and are left out.
      The map is modelled with [eventEmitter = null] (the constructor's
      default): listeners are collaborators outside this class.
    - [console.error] messages are recorded, in order, in the field
      [console]; [console.log] and [console.debug] output is informational
      and not recorded.
    - A path returned by [findPath] is the array the cache holds.  Its
      callers only read it, so paths are values.

    The second half of the model covers the map's coordinate conversions and
    the classes that call the map or are called with it: [CashManager],
    [PlayerBase], [BasicEnemy], [EnemyManager], the update loop of
    [MunitionsManager] and [TowerPlacementSystem].  There the cell size is a
    parameter, since only the constructor assigns it. *)

From stdpp Require Import gmap strings list pretty.
From Stdlib Require Import ZArith Lia Ascii QArith Qround Lqa.

Close Scope Q_scope.
Local Open Scope Z_scope.
#[local] Set Warnings "-register-all".

(** ** Cell codes (the comment in the constructor: 0 = empty, 1 = tower,
       2 = obstacle, 3 = player base, 4 = enemy spawn) *)

Definition EMPTY : Z := 0.
Definition TOWER : Z := 1.
Definition OBSTACLE : Z := 2.
Definition BASE : Z := 3.
(** [getCellType]'s out-of-bounds sentinel. *)
Definition OUT_OF_BOUNDS : Z := -1.

(** ** PathNode *)

Inductive PathNode : Type := mkPathNode {
  node_x : Z;
  node_y : Z;
  node_parent : option PathNode;
  node_g : Z;
  node_h : Z;
  node_f : Z
}.

(** [new PathNode(x, y, parent, g, h)]: the constructor sets [f = g + h]. *)
Definition newPathNode (x y : Z) (parent : option PathNode) (g h : Z) : PathNode :=
  mkPathNode x y parent g h (g + h).

(** ** MapSystem *)

Record MapSystem : Type := mkMapSystem {
  gridWidth : nat;
  gridHeight : nat;
  grid : list (list Z);
  pathCache : gmap string (option (list (Z * Z)));
  playerBase : option (Z * Z);
  enemySpawns : list (Z * Z);
  (** the [console.error] messages issued so far, oldest first *)
  console : list string;
  (** instrumentation, not a field of the source: how many times the A*
      search loop of [findPath] has been run *)
  searchCount : nat
}.

Definition set_grid (s : MapSystem) (gr : list (list Z)) : MapSystem :=
  mkMapSystem (gridWidth s) (gridHeight s) gr (pathCache s) (playerBase s)
              (enemySpawns s) (console s) (searchCount s).

Definition set_pathCache (s : MapSystem)
    (c : gmap string (option (list (Z * Z)))) : MapSystem :=
  mkMapSystem (gridWidth s) (gridHeight s) (grid s) c (playerBase s)
              (enemySpawns s) (console s) (searchCount s).

Definition set_playerBase (s : MapSystem) (b : option (Z * Z)) : MapSystem :=
  mkMapSystem (gridWidth s) (gridHeight s) (grid s) (pathCache s) b
              (enemySpawns s) (console s) (searchCount s).

Definition set_enemySpawns (s : MapSystem) (l : list (Z * Z)) : MapSystem :=
  mkMapSystem (gridWidth s) (gridHeight s) (grid s) (pathCache s) (playerBase s)
              l (console s) (searchCount s).

Definition console_error (s : MapSystem) (msg : string) : MapSystem :=
  mkMapSystem (gridWidth s) (gridHeight s) (grid s) (pathCache s) (playerBase s)
              (enemySpawns s) (console s ++ [msg]) (searchCount s).

Definition count_search (s : MapSystem) : MapSystem :=
  mkMapSystem (gridWidth s) (gridHeight s) (grid s) (pathCache s) (playerBase s)
              (enemySpawns s) (console s) (S (searchCount s)).

(** The constructor: [Array(gridHeight).fill(null).map(() =>
    Array(gridWidth).fill(0))], an empty cache, no base, no spawns. *)
Definition newMapSystem (gridWidth gridHeight : nat) : MapSystem :=
  mkMapSystem gridWidth gridHeight
              (replicate gridHeight (replicate gridWidth 0))
              ∅ None [] [] 0%nat.

(** ** Grid management *)

(** [this.grid[y][x]], read after a bounds check; [None] is JavaScript's
    [undefined], which a grid of the declared dimensions never yields. *)
Definition cell_at (gr : list (list Z)) (x y : Z) : option Z :=
  match gr !! Z.to_nat y with
  | Some row => row !! Z.to_nat x
  | None => None
  end.

(** [this.grid[y][x] = v].  On a grid of the declared dimensions the write
    is in range whenever the bounds check passed; a missing row (where
    JavaScript would throw) leaves the model's grid as it is. *)
Definition write_cell (gr : list (list Z)) (x y v : Z) : list (list Z) :=
  match gr !! Z.to_nat y with
  | Some row => <[Z.to_nat y := <[Z.to_nat x := v]> row]> gr
  | None => gr
  end.

Definition isValidGridCoords (s : MapSystem) (x y : Z) : bool :=
  (0 <=? x) && (x <? Z.of_nat (gridWidth s)) &&
  (0 <=? y) && (y <? Z.of_nat (gridHeight s)).

Definition getCellType (s : MapSystem) (x y : Z) : option Z :=
  if isValidGridCoords s x y then cell_at (grid s) x y
  else Some OUT_OF_BOUNDS.

Definition invalidatePathCache (s : MapSystem) : MapSystem :=
  set_pathCache s ∅.

(** [setCellType]: with [eventEmitter = null] the emit is skipped. *)
Definition setCellType (s : MapSystem) (x y type : Z) : MapSystem :=
  if isValidGridCoords s x y
  then invalidatePathCache (set_grid s (write_cell (grid s) x y type))
  else s.

(** [cellType === k] on a cell that may be [undefined]. *)
Definition cell_is (c : option Z) (k : Z) : bool :=
  match c with Some v => v =? k | None => false end.

Definition isCellPassable (s : MapSystem) (x y : Z) (forEnemies : bool) : bool :=
  if negb (isValidGridCoords s x y) then false
  else
    let cellType := cell_at (grid s) x y in
    if forEnemies
    then cell_is cellType 0 || cell_is cellType 3 || cell_is cellType 4
    else cell_is cellType 0.

(** ** Terrain elements *)

Definition setPlayerBase (s : MapSystem) (gridX gridY : Z) : MapSystem :=
  if isValidGridCoords s gridX gridY
  then setCellType (set_playerBase s (Some (gridX, gridY))) gridX gridY 3
  else console_error s "Invalid coordinates for player base.".

Definition getPlayerBaseCoords (s : MapSystem) : option (Z * Z) := playerBase s.

Definition addEnemySpawn (s : MapSystem) (gridX gridY : Z) : MapSystem :=
  if isValidGridCoords s gridX gridY
  then setCellType (set_enemySpawns s (enemySpawns s ++ [(gridX, gridY)]))
                   gridX gridY 4
  else console_error s "Invalid coordinates for enemy spawn.".

Definition getEnemySpawnCoords (s : MapSystem) : list (Z * Z) := enemySpawns s.

Definition addObstacle (s : MapSystem) (gridX gridY : Z) : MapSystem * bool :=
  if isValidGridCoords s gridX gridY && cell_is (cell_at (grid s) gridX gridY) 0
  then (setCellType s gridX gridY 2, true)
  else (s, false).

(** ** Pathfinding (A-star) *)

(** [_heuristic]: Manhattan distance. *)
Definition _heuristic (a b : Z * Z) : Z :=
  Z.abs (a.1 - b.1) + Z.abs (a.2 - b.2).

(** The cache key [`${startX},${startY}_${endX},${endY}`]. *)
Definition cacheKey (startX startY endX endY : Z) : string :=
  pretty startX +:+ "," +:+ pretty startY +:+ "_" +:+
  pretty endX +:+ "," +:+ pretty endY.

(** The closed-set key [`${x},${y}`]. *)
Definition posKey (x y : Z) : string :=
  pretty x +:+ "," +:+ pretty y.

(** [openSet.sort((a, b) => a.f - b.f)].  [Array.prototype.sort] is stable,
    and a stable sort has one possible result: the insertion sort that puts
    a node before the first node whose [f] is not smaller. *)
Fixpoint insert_by_f (n : PathNode) (l : list PathNode) : list PathNode :=
  match l with
  | [] => [n]
  | m :: l' => if node_f n <=? node_f m then n :: m :: l'
               else m :: insert_by_f n l'
  end.

Fixpoint sort_by_f (l : list PathNode) : list PathNode :=
  match l with
  | [] => []
  | n :: l' => insert_by_f n (sort_by_f l')
  end.

(** Path reconstruction: [while (temp) { path.push({x, y}); temp =
    temp.parent }], goal first. *)
Fixpoint walk_parents (n : PathNode) : list (Z * Z) :=
  match n with
  | mkPathNode x y p _ _ _ =>
      (x, y) :: match p with Some q => walk_parents q | None => [] end
  end.

Definition neighbors (currentNode : PathNode) : list (Z * Z) :=
  [ (node_x currentNode, node_y currentNode - 1);
    (node_x currentNode, node_y currentNode + 1);
    (node_x currentNode - 1, node_y currentNode);
    (node_x currentNode + 1, node_y currentNode) ].

(** One turn of the loop [for (const neighborPos of neighbors)].

    A node found in [openSet] is updated where it stands.  The source
    mutates the node object; no other reference to it exists, because only
    nodes already removed from [openSet] are ever used as a [parent]. *)
Definition visit_neighbor (s : MapSystem) (endX endY : Z)
    (currentNode : PathNode) (closedSet : gset string)
    (openSet : list PathNode) (neighborPos : Z * Z) : list PathNode :=
  if negb (isCellPassable s neighborPos.1 neighborPos.2 true)
     || bool_decide (posKey neighborPos.1 neighborPos.2 ∈ closedSet)
  then openSet
  else
    let gScore := node_g currentNode + 1 in
    match list_find (λ n, node_x n = neighborPos.1 ∧ node_y n = neighborPos.2)
                    openSet with
    | None =>
        openSet ++ [newPathNode neighborPos.1 neighborPos.2 (Some currentNode)
                       gScore (_heuristic neighborPos (endX, endY))]
    | Some (i, neighborNode) =>
        if gScore <? node_g neighborNode
        then <[i := mkPathNode (node_x neighborNode) (node_y neighborNode)
                      (Some currentNode) gScore (node_h neighborNode)
                      (gScore + node_h neighborNode)]> openSet
        else openSet
    end.

(** The loop [while (openSet.length > 0)], one turn per unit of fuel.
    [None]: the fuel ran out; [Some None]: the open set emptied (no path);
    [Some (Some p)]: the goal was taken from the open set. *)
Fixpoint search_loop (fuel : nat) (s : MapSystem) (endX endY : Z)
    (openSet : list PathNode) (closedSet : gset string)
    : option (option (list (Z * Z))) :=
  match fuel with
  | O => None
  | S fuel' =>
      match sort_by_f openSet with
      | [] => Some None
      | currentNode :: rest =>
          if (node_x currentNode =? endX) && (node_y currentNode =? endY)
          then Some (Some (rev (walk_parents currentNode)))
          else
            let closedSet' :=
              {[ posKey (node_x currentNode) (node_y currentNode) ]} ∪ closedSet in
            let openSet' :=
              foldl (visit_neighbor s endX endY currentNode closedSet')
                    rest (neighbors currentNode) in
            search_loop fuel' s endX endY openSet' closedSet'
      end
  end.

(** Enough turns for any search on the grid (lemma [search_loop_total]):
    a turn closes a cell that was not closed before. *)
Definition search_fuel (s : MapSystem) : nat :=
  S (S (gridWidth s * gridHeight s)).

Definition startNode (startX startY endX endY : Z) : PathNode :=
  newPathNode startX startY None 0 (_heuristic (startX, startY) (endX, endY)).

(** The search part of [findPath], from [const openSet = []] to the result
    ([null] is [None]).  The loop is given [search_fuel] turns, which it
    never uses up ([search_loop_total]), so the last branch is dead. *)
Definition astar (s : MapSystem) (startX startY endX endY : Z)
    : option (list (Z * Z)) :=
  match search_loop (search_fuel s) s endX endY
                    [startNode startX startY endX endY] ∅ with
  | Some r => r
  | None => None
  end.

(** [findPath]: the cache is read unless [forceRecalculate]; the result of
    a search is stored under the key on both exits of the loop. *)
Definition findPath (s : MapSystem) (startX startY endX endY : Z)
    (forceRecalculate : bool) : MapSystem * option (list (Z * Z)) :=
  let key := cacheKey startX startY endX endY in
  match (if forceRecalculate then None else pathCache s !! key) with
  | Some cached => (s, cached)
  | None =>
      let r := astar s startX startY endX endY in
      (count_search (set_pathCache s (<[key := r]> (pathCache s))), r)
  end.

(** ** Tower placement *)

(** The loop [for (const spawn of this.enemySpawns)] of [canPlaceTower],
    with its [break]; the boolean is [allPathsValid]. *)
Fixpoint check_spawns (s : MapSystem) (spawns : list (Z * Z)) (bx by_ : Z)
    : MapSystem * bool :=
  match spawns with
  | [] => (s, true)
  | spawn :: rest =>
      let '(s', path) := findPath s spawn.1 spawn.2 bx by_ true in
      match path with
      | None => (s', false)
      | Some p =>
          if (length p =? 0)%nat then (s', false)
          else check_spawns s' rest bx by_
      end
  end.

Definition canPlaceTower (s : MapSystem) (gridX gridY : Z) : MapSystem * bool :=
  if negb (isCellPassable s gridX gridY false) then (s, false)
  else
    (* the read is defined: isCellPassable has just seen the cell equal 0 *)
    let originalCellType := default 0 (cell_at (grid s) gridX gridY) in
    let s1 := set_grid s (write_cell (grid s) gridX gridY 1) in
    match playerBase s1 with
    | None =>
        let s2 := console_error s1
                    "Player base not set, cannot check tower placement." in
        (set_grid s2 (write_cell (grid s2) gridX gridY originalCellType), false)
    | Some pb =>
        let '(s2, allPathsValid) :=
          check_spawns s1 (enemySpawns s1) pb.1 pb.2 in
        (set_grid s2 (write_cell (grid s2) gridX gridY originalCellType),
         allPathsValid)
    end.

Definition placeTower (s : MapSystem) (gridX gridY : Z) : MapSystem * bool :=
  let '(s1, ok) := canPlaceTower s gridX gridY in
  if ok then (invalidatePathCache (setCellType s1 gridX gridY 1), true)
  else (s1, false).

Definition removeTower (s : MapSystem) (gridX gridY : Z) : MapSystem * bool :=
  if isValidGridCoords s gridX gridY && cell_is (cell_at (grid s) gridX gridY) 1
  then (invalidatePathCache (setCellType s gridX gridY 0), true)
  else (s, false).

(** ** Sequences of calls *)

Inductive call : Type :=
  | SetPlayerBase (x y : Z)
  | AddEnemySpawn (x y : Z)
  | AddObstacle (x y : Z)
  | PlaceTower (x y : Z)
  | RemoveTower (x y : Z)
  | SetCellType (x y type : Z)
  | CanPlaceTower (x y : Z)
  | FindPath (startX startY endX endY : Z) (forceRecalculate : bool).

Definition do_call (s : MapSystem) (c : call) : MapSystem :=
  match c with
  | SetPlayerBase x y => setPlayerBase s x y
  | AddEnemySpawn x y => addEnemySpawn s x y
  | AddObstacle x y => (addObstacle s x y).1
  | PlaceTower x y => (placeTower s x y).1
  | RemoveTower x y => (removeTower s x y).1
  | SetCellType x y t => setCellType s x y t
  | CanPlaceTower x y => (canPlaceTower s x y).1
  | FindPath sx sy ex ey b => (findPath s sx sy ex ey b).1
  end.

Definition do_calls (s : MapSystem) (cs : list call) : MapSystem :=
  foldl do_call s cs.

(** The states a map can be in: those its methods lead to from a freshly
    constructed map. *)
Definition reachable (s : MapSystem) : Prop :=
  ∃ (w h : nat) (cs : list call), s = do_calls (newMapSystem w h) cs.

(** The corridor scenario: 3x3, base (2,1), spawn (0,1), obstacles (1,0)
    and (1,2). *)
Definition corridor : MapSystem :=
  do_calls (newMapSystem 3 3)
    [SetPlayerBase 2 1; AddEnemySpawn 0 1; AddObstacle 1 0; AddObstacle 1 2].

(** * The classes around the map

    The map's collaborators, each in a module of its name.  Pixel
    positions and sizes are JavaScript numbers; the model takes them as
    rationals, [cellSize] as a whole number of pixels, and grid indices,
    cash and hit points as integers.  Calls on [uiManager] and
    [console.log] only display; they are left out.  Objects that several
    classes hold (the map, the cash manager, the base) are passed in and
    handed back. *)

(** ** Coordinate conversion (MapSystem) *)


Definition gridToWorld (cellSize : Z) (gridX gridY : Z) (centered : bool)
    : Q * Q :=
  if centered then
    ((inject_Z gridX * inject_Z cellSize + inject_Z cellSize / 2)%Q,
     (inject_Z gridY * inject_Z cellSize + inject_Z cellSize / 2)%Q)
  else
    ((inject_Z gridX * inject_Z cellSize)%Q,
     (inject_Z gridY * inject_Z cellSize)%Q).



(** ** CashManager

    With [uiManager = null] and [eventEmitter = null], the constructor's
    defaults: the calls skipped only display or announce the balance. *)

Module CashManager.

Record t : Type := mk { cash : Z }.

Definition new (initialCash : Z) : t := mk initialCash.

Definition getCurrentCash (c : t) : Z := cash c.

Definition addCash (c : t) (amount : Z) : t :=
  if amount <=? 0 then c else mk (cash c + amount).

Definition spendCash (c : t) (amount : Z) : t * bool :=
  if amount <=? 0 then (c, false)
  else if cash c >=? amount then (mk (cash c - amount), true)
  else (c, false).

Definition hasEnoughCash (c : t) (amount : Z) : bool := cash c >=? amount.

Definition setCash (c : t) (amount : Z) : t := mk amount.

(** The calls that move money in the course of a game. *)
Inductive call : Type :=
  | AddCash (amount : Z)
  | SpendCash (amount : Z).

Definition do_call (c : t) (k : call) : t :=
  match k with
  | AddCash amount => addCash c amount
  | SpendCash amount => (spendCash c amount).1
  end.

End CashManager.

(** ** PlayerBase

    The base announces its hit points on the map's emitter, which is null
    in this model. *)

Module PlayerBase.

Record t : Type := mk {
  gridX : Z;
  gridY : Z;
  x : Q;
  y : Q;
  maxHp : Z;
  hp : Z;
  (** instrumentation, not a field of the source: how many times
      [handleDestruction] has run *)
  destructions : nat
}.

Definition set_hp (b : t) (v : Z) : t :=
  mk (gridX b) (gridY b) (x b) (y b) (maxHp b) v (destructions b).

(** The constructor registers the base with the map. *)
Definition new (cellSize : Z) (gridX gridY : Z) (mapSystem : MapSystem)
    (initialHp : Z) : t * MapSystem :=
  let worldPos := gridToWorld cellSize gridX gridY false in
  (mk gridX gridY worldPos.1 worldPos.2 initialHp initialHp 0,
   setPlayerBase mapSystem gridX gridY).

Definition handleDestruction (b : t) : t :=
  mk (gridX b) (gridY b) (x b) (y b) (maxHp b) (hp b) (S (destructions b)).

Definition takeDamage (b : t) (amount : Z) : t :=
  let b1 := set_hp b (hp b - amount) in
  let b2 := if hp b1 <? 0 then set_hp b1 0 else b1 in
  if hp b2 =? 0 then handleDestruction b2 else b2.

Definition heal (b : t) (amount : Z) : t :=
  let b1 := set_hp b (hp b + amount) in
  if hp b1 >? maxHp b1 then set_hp b1 (maxHp b1) else b1.

Inductive call : Type :=
  | TakeDamage (amount : Z)
  | Heal (amount : Z).

Definition amount_of (k : call) : Z :=
  match k with TakeDamage a => a | Heal a => a end.

Definition do_call (b : t) (k : call) : t :=
  match k with
  | TakeDamage amount => takeDamage b amount
  | Heal amount => heal b amount
  end.

End PlayerBase.

(** ** BasicEnemy and EnemyManager

    The two classes call each other ([onDie] reports to the manager, the
    manager scans its enemies), so they share a module. *)

Module Enemies.

Record BasicEnemy : Type := mkBasicEnemy {
  x : Q;
  y : Q;
  hp : Z;
  maxHp : Z;
  cashValue : Z;
  damageToBase : Z;
  isActive : bool
}.

Definition set_hp (e : BasicEnemy) (v : Z) : BasicEnemy :=
  mkBasicEnemy (x e) (y e) v (maxHp e) (cashValue e) (damageToBase e)
               (isActive e).

Definition set_isActive (e : BasicEnemy) (v : bool) : BasicEnemy :=
  mkBasicEnemy (x e) (y e) (hp e) (maxHp e) (cashValue e) (damageToBase e) v.

(** [EnemyManager.handleEnemyReachedBase], [handleEnemyDefeated]: the
    enemy passed in is not looked at. *)
Definition handleEnemyReachedBase (playerBase : PlayerBase.t)
    (damageToBase : Z) : PlayerBase.t :=
  PlayerBase.takeDamage playerBase damageToBase.

Definition handleEnemyDefeated (cashManager : CashManager.t) (cashValue : Z)
    : CashManager.t :=
  CashManager.addCash cashManager cashValue.

(** [BasicEnemy.onDie], [takeDamage], [heal]. *)
Definition onDie (e : BasicEnemy) (cashManager : CashManager.t)
    : BasicEnemy * CashManager.t :=
  (set_isActive e false, handleEnemyDefeated cashManager (cashValue e)).

Definition takeDamage (e : BasicEnemy) (cashManager : CashManager.t)
    (amount : Z) : BasicEnemy * CashManager.t :=
  if negb (isActive e) then (e, cashManager)
  else
    let e1 := set_hp e (hp e - amount) in
    if hp e1 <=? 0 then onDie (set_hp e1 0) cashManager
    else (e1, cashManager).

Definition heal (e : BasicEnemy) (amount : Z) : BasicEnemy :=
  if negb (isActive e) then e
  else set_hp e (Z.min (hp e + amount) (maxHp e)).

Inductive call : Type :=
  | TakeDamage (amount : Z)
  | Heal (amount : Z).

Definition do_call (st : BasicEnemy * CashManager.t) (k : call)
    : BasicEnemy * CashManager.t :=
  match k with
  | TakeDamage amount => takeDamage st.1 st.2 amount
  | Heal amount => (heal st.1 amount, st.2)
  end.







End Enemies.

(** ** The update loops (EnemyManager.updateEnemies,
    MunitionsManager.updateMunitions)

    [for (let i = length - 1; i >= 0; i--) { o.update(dt); if (!o.isActive)
    splice(i, 1); }].  [update] changes the object in place and whatever
    else it reaches (the world [W]: base, cash, map, the bullets' targets),
    but not the array being swept.  [None] is the TypeError of calling
    [update] on [undefined]. *)

Fixpoint sweep {A W : Type} (update : A → W → A * W) (isActive : A → bool)
    (i : nat) (l : list A) (w : W) : option (list A * W) :=
  match i with
  | O => Some (l, w)
  | S j =>
      match l !! j with
      | None => None
      | Some o =>
          let '(o', w') := update o w in
          let l' := <[j := o']> l in
          sweep update isActive j (if isActive o' then l' else delete j l') w'
      end
  end.

Definition updateEnemies {W : Type}
    (update : Enemies.BasicEnemy → W → Enemies.BasicEnemy * W)
    (enemies : list Enemies.BasicEnemy) (w : W)
    : option (list Enemies.BasicEnemy * W) :=
  sweep update Enemies.isActive (length enemies) enemies w.

Definition updateMunitions {M W : Type} (update : M → W → M * W)
    (isActive : M → bool) (munitions : list M) (w : W)
    : option (list M * W) :=
  sweep update isActive (length munitions) munitions w.

(** ** TowerPlacementSystem *)

Module TowerPlacementSystem.

(** [towerTypes] maps a type name to its entry; of an entry the model
    keeps the [cost] of its [stats], [None] when the stats have none.  A
    tower class is named by its type name; its constructor, like
    CannonTower's, reads the map and changes nothing.  A tower instance is
    the cell it stands on.  [towerPlaced] lists the towers announced with
    the event of that name, oldest first.  A name that is not registered
    selects nothing: the properties an object inherits have no [class], and
    the guard of [_attemptPlaceTower] stops at a selection without one. *)
Record t : Type := mk {
  mapSystem : MapSystem;
  cashManager : CashManager.t;
  towerTypes : gmap string (option Z);
  isPlacingTower : bool;
  selectedTowerType : option string;
  selectedTowerClass : option string;
  previewTowerInstance : option (option Z);
  currentGridHover : Z * Z;
  canPlaceAtCurrentHover : bool;
  towerPlaced : list (Z * Z)
}.

Definition new (mapSystem : MapSystem) (cashManager : CashManager.t)
    (towerTypes : gmap string (option Z)) : t :=
  mk mapSystem cashManager towerTypes false None None None (-1, -1) false [].















End TowerPlacementSystem.

(** * Vocabulary of the properties *)

(** [s'] has the dimensions, the grid, the base and the spawns of [s]. *)
Definition same_terrain (s s' : MapSystem) : Prop :=
  gridWidth s' = gridWidth s ∧ gridHeight s' = gridHeight s ∧
  grid s' = grid s ∧ playerBase s' = playerBase s ∧
  enemySpawns s' = enemySpawns s.

(** [canPlaceTower(x, y)] called [n] times in a row. *)
Fixpoint canPlaceTower_times (n : nat) (s : MapSystem) (x y : Z) : MapSystem :=
  match n with
  | O => s
  | S n' => canPlaceTower_times n' (canPlaceTower s x y).1 x y
  end.

(** The calls that commit a change of a cell. *)
Definition commits (s : MapSystem) (c : call) : bool :=
  match c with
  | SetPlayerBase x y => isValidGridCoords s x y
  | AddEnemySpawn x y => isValidGridCoords s x y
  | SetCellType x y _ => isValidGridCoords s x y
  | AddObstacle x y => (addObstacle s x y).2
  | PlaceTower x y => (placeTower s x y).2
  | RemoveTower x y => (removeTower s x y).2
  | CanPlaceTower _ _ => false
  | FindPath _ _ _ _ _ => false
  end.

(** The number of cells of the grid holding the code [k]. *)
Definition count_cells (k : Z) (gr : list (list Z)) : nat :=
  sum_list ((λ row, length (filter (λ c, c = k) row)) <$> gr).

(** The calls that write the code 3 (Base) into a cell. *)
Definition writes_base (c : call) : bool :=
  match c with
  | SetPlayerBase _ _ => true
  | SetCellType _ _ t => t =? BASE
  | _ => false
  end.

(** How many calls of a sequence write Base. *)
Definition base_writes (cs : list call) : nat :=
  length (filter (λ c, writes_base c = true) cs).

(** The character [c] occurs in the string. *)
Fixpoint string_has (c : ascii) (s : string) : Prop :=
  match s with
  | EmptyString => False
  | String a s' => a = c ∨ string_has c s'
  end.

(** Every cache entry for a pair with start equal to goal is that one-cell
    path. *)
Definition self_paths_ok (c : gmap string (option (list (Z * Z)))) : Prop :=
  ∀ x y v, c !! cacheKey x y x y = Some v → v = Some [(x, y)].

(** The cell of a node. *)
Definition coords (n : PathNode) : Z * Z := (node_x n, node_y n).

(** The head of a list in ascending order of [f], if there is one, has the
    smallest [f]. *)
Definition head_least (l : list PathNode) : Prop :=
  match l with
  | [] => True
  | c :: rest => Forall (λ n, node_f c <= node_f n) rest
  end.

(** The cells of the grid. *)
Definition all_cells (s : MapSystem) : list (Z * Z) :=
  list_prod (seqZ 0 (Z.of_nat (gridWidth s)))
            (seqZ 0 (Z.of_nat (gridHeight s))).

(** A cell the search has not met yet: passable, not closed, and with no
    node in the open set. *)
Definition unseen (s : MapSystem) (waiting : list (Z * Z))
    (closedSet : gset string) (p : Z * Z) : Prop :=
  isCellPassable s p.1 p.2 true = true ∧
  (posKey p.1 p.2 ∉ closedSet) ∧
  (p ∉ waiting).

#[local] Instance unseen_dec s waiting closedSet p :
  Decision (unseen s waiting closedSet p).
Proof. unfold unseen. apply _. Defined.

(** What is left to do: the unseen cells and the nodes waiting in the open
    set.  A turn of the loop takes one node out, and puts a node in only
    for a cell that stops being unseen. *)
Definition work (s : MapSystem) (openSet : list PathNode)
    (closedSet : gset string) : nat :=
  (length (filter (unseen s (coords <$> openSet) closedSet) (all_cells s))
   + length openSet)%nat.

(** The positions the loop visits around (x, y): up, down, left, right. *)
Definition adjacent (u : Z * Z) : list (Z * Z) :=
  [ (u.1, u.2 - 1); (u.1, u.2 + 1); (u.1 - 1, u.2); (u.1 + 1, u.2) ].


(** The cell [v] is closed, or waits in the open set with a cost of at
    most [bound]. *)
Definition covered (openSet : list PathNode) (closedSet : gset string)
    (v : Z * Z) (bound : Z) : Prop :=
  posKey v.1 v.2 ∈ closedSet ∨
  ∃ n, n ∈ openSet ∧ coords n = v ∧ node_g n <= bound.





(** Every call but a direct [setCellType]: registration, placement and
    removal, and the two queries. *)
Definition surface (c : call) : Prop :=
  match c with
  | SetCellType _ _ _ => False
  | _ => True
  end.

(** The grid has the declared dimensions: every cell in bounds exists. *)
Definition grid_wf (s : MapSystem) : Prop :=
  ∀ x y, isValidGridCoords s x y = true → is_Some (cell_at (grid s) x y).



(** A walk on the grid: every cell after the first is one step away from
    the cell before it and passable for enemies.  (The first cell is where
    the walker stands; the search never tests it.) *)
Fixpoint is_walk (s : MapSystem) (p : list (Z * Z)) : bool :=
  match p with
  | [] => true
  | a :: q =>
      match q with
      | [] => true
      | b :: _ =>
          bool_decide (b ∈ adjacent a) && isCellPassable s b.1 b.2 true
          && is_walk s q
      end
  end.

(** [p] is a walk from [a] to [b]. *)
Definition walk_between (s : MapSystem) (a b : Z * Z) (p : list (Z * Z))
    : Prop :=
  is_walk s p = true ∧ head p = Some a ∧ last p = Some b.

(** Enemies can walk from [a] to [b]. *)
Definition connected (s : MapSystem) (a b : Z * Z) : Prop :=
  ∃ p, walk_between s a b p.

(** There is a walk of [k] steps from [a] to [b]. *)
Definition walk_steps (s : MapSystem) (a b : Z * Z) (k : Z) : Prop :=
  ∃ p, walk_between s a b p ∧ Z.of_nat (length p) = k + 1.

(** What holds of a waiting node on any grid: [h] and [f] are what the
    constructor computed, the parent chain is a walk from the start with
    [g] steps, and the cell is not closed. *)
Definition node_gen (s : MapSystem) (startX startY endX endY : Z)
    (closedSet : gset string) (n : PathNode) : Prop :=
  node_h n = _heuristic (coords n) (endX, endY) ∧
  node_f n = node_g n + node_h n ∧
  Z.of_nat (length (walk_parents n)) = node_g n + 1 ∧
  is_walk s (rev (walk_parents n)) = true ∧
  last (walk_parents n) = Some (startX, startY) ∧
  posKey (node_x n) (node_y n) ∉ closedSet.

(** The invariant of the loop of [findPath] on any grid: as [search_inv],
    with the number of steps of any walk to a closed cell in the place of
    its Manhattan distance. *)
Record search_gen (s : MapSystem) (startX startY endX endY : Z)
    (openSet : list PathNode) (closedSet : gset string) : Prop := {
  gen_nodes : Forall (node_gen s startX startY endX endY closedSet) openSet;
  gen_nodup : NoDup (coords <$> openSet);
  gen_closed : ∀ u v k,
    posKey u.1 u.2 ∈ closedSet → walk_steps s (startX, startY) u k →
    v ∈ adjacent u → isCellPassable s v.1 v.2 true = true →
    covered openSet closedSet v (k + 1);
  gen_start : covered openSet closedSet (startX, startY) 0;
  gen_goal : posKey endX endY ∉ closedSet
}.

(** The cell [t] is closed, or a waiting node can still reach it within
    [k] steps in all. *)
Definition within (openSet : list PathNode) (closedSet : gset string)
    (t : Z * Z) (k : Z) : Prop :=
  posKey t.1 t.2 ∈ closedSet ∨
  ∃ n, n ∈ openSet ∧ node_g n + _heuristic (coords n) t <= k.

(** The map with the tower of [canPlaceTower]'s simulation written at
    (x, y). *)
Definition tower_at (s : MapSystem) (x y : Z) : MapSystem :=
  set_grid s (write_cell (grid s) x y TOWER).

(** A base is registered and enemies can walk to it from every registered
    spawn. *)
Definition all_connected (s : MapSystem) : Prop :=
  ∃ pb, playerBase s = Some pb ∧
        ∀ sp, sp ∈ enemySpawns s → connected s sp pb.

(** The calls that place or remove towers, and the queries. *)
Definition tower_call (c : call) : Prop :=
  match c with
  | PlaceTower _ _ | RemoveTower _ _ | CanPlaceTower _ _
  | FindPath _ _ _ _ _ => True
  | _ => False
  end.


(** The recorded base and the recorded spawns are cells of the grid. *)
Definition registry_in_bounds (s : MapSystem) : Prop :=
  (∀ pb, playerBase s = Some pb → isValidGridCoords s pb.1 pb.2 = true) ∧
  (∀ sp, sp ∈ enemySpawns s → isValidGridCoords s sp.1 sp.2 = true).

(** The bounty an enemy has paid between two of its states. *)
Definition bounty (e e' : Enemies.BasicEnemy) : Z :=
  if Enemies.isActive e && negb (Enemies.isActive e')
     && (0 <? Enemies.cashValue e)
  then Enemies.cashValue e else 0.

(** Every object of the list updated once, the last one first. *)
Fixpoint update_all {A W : Type} (update : A → W → A * W) (l : list A)
    (w : W) : list A * W :=
  match l with
  | [] => ([], w)
  | o :: rest =>
      let '(rest', w1) := update_all update rest w in
      let '(o', w2) := update o w1 in
      (o' :: rest', w2)
  end.



(** Every cell of the grid holds one of the five codes 0..4. *)
Definition codes_ok (s : MapSystem) : Prop :=
  Forall (Forall (λ v, 0 ≤ v ≤ 4)) (grid s).

(** * Properties *)

#[global] Arguments findPath : simpl never.
#[global] Arguments astar : simpl never.
#[global] Arguments canPlaceTower : simpl never.
#[global] Arguments setCellType : simpl never.
#[global] Arguments isCellPassable : simpl never.
#[global] Arguments isValidGridCoords : simpl never.

(** ** Reading and writing cells *)

Lemma cell_at_write_eq (gr : list (list Z)) (x y v : Z) :
  is_Some (cell_at gr x y) → cell_at (write_cell gr x y v) x y = Some v.
Proof.
  unfold cell_at, write_cell. intros [c Hc].
  destruct (gr !! Z.to_nat y) as [row|] eqn:Hrow; [|done].
  rewrite list_lookup_insert_eq by (by eapply lookup_lt_Some).
  apply list_lookup_insert_eq. by eapply lookup_lt_Some.
Qed.

Lemma cell_at_write_ne (gr : list (list Z)) (x y v x' y' : Z) :
  (Z.to_nat x', Z.to_nat y') ≠ (Z.to_nat x, Z.to_nat y) →
  cell_at (write_cell gr x y v) x' y' = cell_at gr x' y'.
Proof.
  unfold cell_at, write_cell. intros Hne.
  destruct (gr !! Z.to_nat y) as [row|] eqn:Hrow; [|done].
  destruct (decide (Z.to_nat y' = Z.to_nat y)) as [Hy|Hy].
  - rewrite Hy, Hrow.
    rewrite list_lookup_insert_eq by (by eapply lookup_lt_Some).
    apply list_lookup_insert_ne. congruence.
  - by rewrite list_lookup_insert_ne.
Qed.

(** Writing a cell and then writing its old value back restores the grid. *)
Lemma write_cell_revert (gr : list (list Z)) (x y v w : Z) :
  cell_at gr x y = Some v → write_cell (write_cell gr x y w) x y v = gr.
Proof.
  unfold cell_at, write_cell. intros Hc.
  destruct (gr !! Z.to_nat y) as [row|] eqn:Hrow; [|done].
  rewrite list_lookup_insert_eq by (by eapply lookup_lt_Some).
  rewrite list_insert_insert_eq, list_insert_insert_eq.
  rewrite (list_insert_id row) by done. by apply list_insert_id.
Qed.

Lemma cell_is_true (c : option Z) (k : Z) : cell_is c k = true ↔ c = Some k.
Proof.
  destruct c as [v|]; simpl; [|naive_solver].
  rewrite Z.eqb_eq. naive_solver.
Qed.

Lemma isValidGridCoords_true (s : MapSystem) (x y : Z) :
  isValidGridCoords s x y = true ↔
  0 <= x < Z.of_nat (gridWidth s) ∧ 0 <= y < Z.of_nat (gridHeight s).
Proof. unfold isValidGridCoords. rewrite !andb_true_iff. lia. Qed.

(** ** The terrain: what a path query may not change *)

Lemma findPath_same_terrain s sx sy ex ey b :
  same_terrain s (findPath s sx sy ex ey b).1.
Proof.
  unfold findPath, same_terrain.
  by destruct (if b then None else pathCache s !! cacheKey sx sy ex ey).
Qed.

Lemma check_spawns_same_terrain spawns : ∀ s bx by_,
  same_terrain s (check_spawns s spawns bx by_).1.
Proof.
  induction spawns as [|spawn rest IH]; intros s bx by_;
    cbn [check_spawns]; [done|].
  pose proof (findPath_same_terrain s spawn.1 spawn.2 bx by_ true) as Hf.
  destruct (findPath s spawn.1 spawn.2 bx by_ true) as [s' [p|]];
    simpl in *; [|exact Hf].
  destruct (length p =? 0)%nat; [exact Hf|].
  specialize (IH s' bx by_). unfold same_terrain in *.
  destruct_and!. repeat split; congruence.
Qed.

Lemma canPlaceTower_same_terrain s x y :
  same_terrain s (canPlaceTower s x y).1.
Proof.
  unfold canPlaceTower.
  destruct (isCellPassable s x y false) eqn:Hp; simpl; [|done].
  assert (cell_at (grid s) x y = Some 0) as Hc.
  { unfold isCellPassable in Hp.
    destruct (isValidGridCoords s x y); simpl in Hp; [|done].
    by apply cell_is_true. }
  rewrite Hc; simpl.
  destruct (playerBase s) as [pb|]; simpl.
  - pose proof (check_spawns_same_terrain (enemySpawns s)
      (set_grid s (write_cell (grid s) x y 1)) pb.1 pb.2) as Hs.
    destruct (check_spawns _ _ _ _) as [s2 ok]; simpl in *.
    destruct Hs as (?&?&Hg&?&?); simpl in *.
    repeat split; simpl; try done.
    rewrite Hg. by apply write_cell_revert.
  - repeat split; simpl. by apply write_cell_revert.
Qed.

Lemma same_terrain_getCellType s s' x y :
  same_terrain s s' → getCellType s' x y = getCellType s x y.
Proof.
  intros (Hw&Hh&Hg&_). unfold getCellType, isValidGridCoords.
  by rewrite Hw, Hh, Hg.
Qed.

(** C2. Calling [canPlaceTower(x, y)] any number of times leaves
    [getCellType(cx, cy)] as it was, for every cell and for coordinates out
    of bounds: the simulated tower is written back on every exit path.
    (A registered base is not needed for this.) *)
Theorem canPlaceTower_preserves_cells (n : nat) (s : MapSystem)
    (x y cx cy : Z) :
  getCellType (canPlaceTower_times n s x y) cx cy = getCellType s cx cy.
Proof.
  revert s. induction n as [|n IH]; intros s; simpl; [done|].
  rewrite IH. apply same_terrain_getCellType, canPlaceTower_same_terrain.
Qed.

(** ** The corridor scenario *)

(** C3. On the corridor map [canPlaceTower(1,1)] returns false,
    [placeTower(1,1)] returns false, and the cell (1,1) is still Empty after
    the [placeTower] call.  The refusal comes from a search that ran until
    its open set was empty, with the tower simulated at (1,1); on the map
    itself the spawn reaches the base through (1,1). *)
Theorem corridor_tower_rejected :
  grid corridor = [[0; 2; 0]; [4; 0; 3]; [0; 2; 0]] ∧
  playerBase corridor = Some (2, 1) ∧ enemySpawns corridor = [(0, 1)] ∧
  (canPlaceTower corridor 1 1).2 = false ∧
  (placeTower corridor 1 1).2 = false ∧
  getCellType (placeTower corridor 1 1).1 1 1 = Some EMPTY ∧
  (let simulated := set_grid corridor (write_cell (grid corridor) 1 1 TOWER) in
   search_loop (search_fuel simulated) simulated 2 1 [startNode 0 1 2 1] ∅
   = Some None) ∧
  astar corridor 0 1 2 1 = Some [(0, 1); (1, 1); (2, 1)].
Proof. vm_compute. repeat split; reflexivity. Qed.

(** ** The cache *)

Lemma findPath_forced (s : MapSystem) (sx sy ex ey : Z) :
  findPath s sx sy ex ey true
  = (count_search (set_pathCache s
       (<[cacheKey sx sy ex ey := astar s sx sy ex ey]> (pathCache s))),
     astar s sx sy ex ey).
Proof. reflexivity. Qed.

Lemma findPath_miss (s : MapSystem) (sx sy ex ey : Z) :
  pathCache s !! cacheKey sx sy ex ey = None →
  findPath s sx sy ex ey false
  = (count_search (set_pathCache s
       (<[cacheKey sx sy ex ey := astar s sx sy ex ey]> (pathCache s))),
     astar s sx sy ex ey).
Proof. intros H. unfold findPath. by rewrite H. Qed.

Lemma findPath_hit (s : MapSystem) (sx sy ex ey : Z) cached :
  pathCache s !! cacheKey sx sy ex ey = Some cached →
  findPath s sx sy ex ey false = (s, cached).
Proof. intros H. unfold findPath. by rewrite H. Qed.

(** C1, at failing inputs.  A forced ([forceRecalculate = true]) call does
    not read the cache, but it stores its result.  On a fresh 5x1 map the
    cache is empty before [findPath(0,0,4,0,true)] and holds the path under
    the key "0,0_4,0" after it.  On the corridor map the cache is empty;
    the refused check [canPlaceTower(1,1)] leaves under "0,1_2,1" the
    no-path result of its simulation, and the next ordinary
    [findPath(0,1,2,1)] returns it, although the search on the map as it is
    finds the path through (1,1). *)
Theorem findPath_forced_writes_cache :
  (pathCache (newMapSystem 5 1) = ∅ ∧
   pathCache (findPath (newMapSystem 5 1) 0 0 4 0 true).1 !! "0,0_4,0"
   = Some (Some [(0, 0); (1, 0); (2, 0); (3, 0); (4, 0)]) ∧
   pathCache (findPath (newMapSystem 5 1) 0 0 4 0 true).1
   ≠ pathCache (newMapSystem 5 1)) ∧
  (pathCache corridor = ∅ ∧
   pathCache (canPlaceTower corridor 1 1).1 !! "0,1_2,1" = Some None ∧
   pathCache (canPlaceTower corridor 1 1).1 ≠ pathCache corridor ∧
   (findPath (canPlaceTower corridor 1 1).1 0 1 2 1 false).2 = None ∧
   astar (canPlaceTower corridor 1 1).1 0 1 2 1
   = Some [(0, 1); (1, 1); (2, 1)]).
Proof.
  split.
  - split; [reflexivity|]. split; [vm_compute; reflexivity|].
    intros H.
    assert (pathCache (findPath (newMapSystem 5 1) 0 0 4 0 true).1
              !! "0,0_4,0" = None) as Hn by (rewrite H; reflexivity).
    vm_compute in Hn. discriminate.
  - split; [vm_compute; reflexivity|]. split; [vm_compute; reflexivity|].
    split; [|split; vm_compute; reflexivity].
    intros H.
    assert (pathCache (canPlaceTower corridor 1 1).1 !! "0,1_2,1" = None)
      as Hn by (rewrite H; reflexivity).
    vm_compute in Hn. discriminate.
Qed.

(** The same stored result on a grid blanked by direct [setCellType]
    calls: base (2,0) and spawn (0,0) are registered on a 3x2 map, their
    cells are set back to 0, and [canPlaceTower(1,0)] runs.  Every cell is
    Empty again, but [findPath(0,0,2,0)] returns the detour the simulation
    found around (1,0). *)
Lemma stale_path_on_blanked_grid :
  let s := do_calls (newMapSystem 3 2)
             [SetPlayerBase 2 0; AddEnemySpawn 0 0; SetCellType 2 0 0;
              SetCellType 0 0 0; CanPlaceTower 1 0] in
  grid s = [[0; 0; 0]; [0; 0; 0]] ∧ playerBase s = Some (2, 0) ∧
  (findPath s 0 0 2 0 false).2
  = Some [(0, 0); (0, 1); (1, 1); (2, 1); (2, 0)] ∧
  astar s 0 0 2 0 = Some [(0, 0); (1, 0); (2, 0)].
Proof. vm_compute. repeat split; reflexivity. Qed.

(** C9. Two ordinary [findPath] calls in a row with the same arguments: the
    second returns the value the first returned (a path or the no-path
    marker), it is the entry the cache holds for the key, and the second
    call changes nothing, the count of searches included. *)
Theorem findPath_twice (s : MapSystem) (sx sy ex ey : Z) :
  let first := findPath s sx sy ex ey false in
  let second := findPath first.1 sx sy ex ey false in
  second.2 = first.2 ∧
  pathCache first.1 !! cacheKey sx sy ex ey = Some first.2 ∧
  second.1 = first.1 ∧
  searchCount second.1 = searchCount first.1.
Proof.
  cbv zeta.
  destruct (pathCache s !! cacheKey sx sy ex ey) as [cached|] eqn:Hc.
  - rewrite (findPath_hit _ _ _ _ _ _ Hc); simpl.
    by rewrite (findPath_hit _ _ _ _ _ _ Hc).
  - rewrite (findPath_miss _ _ _ _ _ Hc); simpl.
    set (s1 := count_search _).
    assert (pathCache s1 !! cacheKey sx sy ex ey = Some (astar s sx sy ex ey))
      as Hh by apply lookup_insert_eq.
    by rewrite (findPath_hit _ _ _ _ _ _ Hh).
Qed.

Lemma setCellType_valid s x y t :
  isValidGridCoords s x y = true →
  setCellType s x y t
  = invalidatePathCache (set_grid s (write_cell (grid s) x y t)).
Proof. intros H. unfold setCellType. by rewrite H. Qed.

Lemma commits_clears_cache s c :
  commits s c = true → pathCache (do_call s c) = ∅.
Proof.
  destruct c; simpl; try done.
  - intros H. unfold setPlayerBase. rewrite H.
    by rewrite setCellType_valid.
  - intros H. unfold addEnemySpawn. rewrite H.
    by rewrite setCellType_valid.
  - unfold addObstacle.
    destruct (isValidGridCoords s x y) eqn:Hv; simpl; [|done].
    destruct (cell_is _ _); simpl; [|done].
    intros _. by rewrite setCellType_valid.
  - unfold placeTower. destruct (canPlaceTower s x y) as [s1 []]; done.
  - unfold removeTower. by destruct (_ && _).
  - intros H. by rewrite setCellType_valid.
Qed.

(** C4. After a call that commits a cell change ([setCellType] in bounds,
    and [setPlayerBase], [addEnemySpawn], [addObstacle], [placeTower],
    [removeTower] when they go through) the cache is empty, and the next
    ordinary [findPath] call, for any endpoints, runs the search on the map
    as it now is instead of serving an earlier result. *)
Theorem mutation_invalidates_cache (s : MapSystem) (c : call) :
  commits s c = true →
  pathCache (do_call s c) = ∅ ∧
  ∀ sx sy ex ey,
    (findPath (do_call s c) sx sy ex ey false).2
    = astar (do_call s c) sx sy ex ey ∧
    searchCount (findPath (do_call s c) sx sy ex ey false).1
    = S (searchCount (do_call s c)).
Proof.
  intros H. pose proof (commits_clears_cache s c H) as Hc.
  split; [done|]. intros sx sy ex ey.
  rewrite findPath_miss; [done|]. by rewrite Hc.
Qed.

Lemma mutation_invalidates_cache_witness :
  commits corridor (RemoveTower 1 1) = false ∧
  commits (newMapSystem 3 3) (SetCellType 1 1 TOWER) = true ∧
  pathCache (do_call (findPath (newMapSystem 3 3) 0 0 2 2 false).1
                     (AddObstacle 1 1)) = ∅.
Proof.
  split; [reflexivity|]. split; [reflexivity|].
  apply (mutation_invalidates_cache
           (findPath (newMapSystem 3 3) 0 0 2 2 false).1 (AddObstacle 1 1)).
  vm_compute. reflexivity.
Defined.

(** ** Registration out of bounds *)



(** ** Base cells *)

Section Counting.
Variable k : Z.

Lemma filter_insert_length (l : list Z) (i : nat) (v : Z) :
  (length (filter (λ c, c = k) (<[i:=v]> l))
   ≤ length (filter (λ c, c = k) l) + (if decide (v = k) then 1 else 0))%nat.
Proof.
  revert i. induction l as [|a l IH]; intros i; simpl; [lia|].
  destruct i as [|i]; simpl.
  - rewrite !filter_cons. repeat case_decide; simpl; lia.
  - specialize (IH i). rewrite !filter_cons.
    destruct (decide (a = k)); simpl; lia.
Qed.

Lemma sum_list_insert_le (f : list Z → nat) (gr : list (list Z))
    (j : nat) (r r' : list Z) (d : nat) :
  gr !! j = Some r → (f r' ≤ f r + d)%nat →
  (sum_list (f <$> <[j:=r']> gr) ≤ sum_list (f <$> gr) + d)%nat.
Proof.
  revert j. induction gr as [|a gr IH]; intros j Hj Hf; [done|].
  destruct j as [|j].
  - injection Hj as ->. simpl. lia.
  - specialize (IH j Hj Hf). unfold fmap in *. simpl. lia.
Qed.

Lemma count_cells_write (gr : list (list Z)) (x y v : Z) :
  (count_cells k (write_cell gr x y v)
   ≤ count_cells k gr + (if decide (v = k) then 1 else 0))%nat.
Proof.
  unfold count_cells, write_cell.
  destruct (gr !! Z.to_nat y) as [row|] eqn:Hrow; [|lia].
  eapply sum_list_insert_le; [done|]. apply filter_insert_length.
Qed.

Lemma count_cells_setCellType (s : MapSystem) (x y v : Z) :
  (count_cells k (grid (setCellType s x y v))
   ≤ count_cells k (grid s) + (if decide (v = k) then 1 else 0))%nat.
Proof.
  unfold setCellType. destruct (isValidGridCoords s x y); simpl; [|lia].
  apply count_cells_write.
Qed.
End Counting.

Lemma base_cells_call (s : MapSystem) (c : call) :
  (count_cells BASE (grid (do_call s c))
   ≤ count_cells BASE (grid s) + (if writes_base c then 1 else 0))%nat.
Proof.
  destruct c; simpl.
  - unfold setPlayerBase. destruct (isValidGridCoords s x y); simpl; [|lia].
    pose proof (count_cells_setCellType BASE
                  (set_playerBase s (Some (x, y))) x y 3) as H.
    by rewrite decide_True in H.
  - unfold addEnemySpawn. destruct (isValidGridCoords s x y); simpl; [|lia].
    pose proof (count_cells_setCellType BASE
      (set_enemySpawns s (enemySpawns s ++ [(x, y)])) x y 4) as H.
    by rewrite decide_False in H.
  - unfold addObstacle. destruct (_ && _); simpl; [|lia].
    pose proof (count_cells_setCellType BASE s x y 2) as H.
    by rewrite decide_False in H.
  - unfold placeTower.
    pose proof (canPlaceTower_same_terrain s x y) as (_&_&Hg&_).
    destruct (canPlaceTower s x y) as [s1 []]; simpl in *; rewrite <-Hg.
    + pose proof (count_cells_setCellType BASE s1 x y 1) as H.
      by rewrite decide_False in H.
    + lia.
  - unfold removeTower. destruct (_ && _); simpl; [|lia].
    pose proof (count_cells_setCellType BASE s x y 0) as H.
    by rewrite decide_False in H.
  - pose proof (count_cells_setCellType BASE s x y type) as H.
    unfold BASE in *. destruct (Z.eqb_spec type 3).
    + by rewrite decide_True in H.
    + by rewrite decide_False in H.
  - pose proof (canPlaceTower_same_terrain s x y) as (_&_&Hg&_).
    rewrite Hg. lia.
  - pose proof (findPath_same_terrain s startX startY endX endY
                  forceRecalculate) as (_&_&Hg&_).
    rewrite Hg. lia.
Qed.

Lemma base_cells_calls (cs : list call) : ∀ s : MapSystem,
  (count_cells BASE (grid (do_calls s cs))
   ≤ count_cells BASE (grid s) + base_writes cs)%nat.
Proof.
  unfold do_calls, base_writes.
  induction cs as [|c cs IH]; intros s; simpl; [lia|].
  specialize (IH (do_call s c)). pose proof (base_cells_call s c) as Hc.
  rewrite filter_cons. destruct (writes_base c); simpl in *; lia.
Qed.

Lemma count_cells_new (w h : nat) :
  count_cells BASE (grid (newMapSystem w h)) = 0%nat.
Proof.
  unfold count_cells; simpl. rewrite fmap_replicate, sum_list_replicate.
  assert (length (filter (λ c : Z, c = BASE) (replicate w 0)) = 0%nat) as ->;
    [|lia].
  induction w as [|w IHw]; simpl; [done|].
  rewrite filter_cons, decide_False by done. exact IHw.
Qed.

(** C7, as amended.  Starting from a fresh map, after any sequence of calls
    of which at most one writes Base ([setPlayerBase], or [setCellType]
    with type 3), at most one cell is Base. *)
Theorem at_most_one_base (w h : nat) (cs : list call) :
  (base_writes cs ≤ 1)%nat →
  (count_cells BASE (grid (do_calls (newMapSystem w h) cs)) ≤ 1)%nat.
Proof.
  intros H. pose proof (base_cells_calls cs (newMapSystem w h)) as Hb.
  rewrite count_cells_new in Hb. lia.
Qed.

Lemma at_most_one_base_witness :
  (base_writes [SetPlayerBase 2 1; AddEnemySpawn 0 1; AddObstacle 1 0;
                PlaceTower 1 1; RemoveTower 1 1] ≤ 1)%nat ∧
  (count_cells BASE (grid (do_calls (newMapSystem 3 3)
     [SetPlayerBase 2 1; AddEnemySpawn 0 1; AddObstacle 1 0;
      PlaceTower 1 1; RemoveTower 1 1])) ≤ 1)%nat.
Proof.
  split; [vm_compute; lia|].
  apply (at_most_one_base 3 3). vm_compute. lia.
Defined.

(** C7 as stated fails: registering the base twice leaves two Base cells,
    because [setPlayerBase] does not touch the cell of the earlier base. *)
Lemma two_base_cells :
  let s := do_calls (newMapSystem 2 1) [SetPlayerBase 0 0; SetPlayerBase 1 0] in
  reachable s ∧
  getCellType s 0 0 = Some BASE ∧ getCellType s 1 0 = Some BASE ∧
  count_cells BASE (grid s) = 2%nat ∧
  ¬ (count_cells BASE (grid s) ≤ 1)%nat.
Proof.
  cbv zeta. split; [by eexists _, _, _|].
  vm_compute. repeat split; try reflexivity. lia.
Qed.

(** ** The string keys determine the coordinates *)

Lemma append_sep_inj (c : ascii) (a : string) : ∀ (a' r r' : string),
  ¬ string_has c a → ¬ string_has c a' →
  a +:+ String c r = a' +:+ String c r' → a = a' ∧ r = r'.
Proof.
  induction a as [|x a IH]; intros [|x' a'] r r' Ha Ha' Heq; simpl in *.
  - by injection Heq as ->.
  - injection Heq as -> _. tauto.
  - injection Heq as -> _. tauto.
  - injection Heq as -> Heq.
    destruct (IH a' r r') as [-> ->]; tauto.
Qed.

Lemma pretty_N_go_chars (c : ascii) (x : N) : ∀ s : string,
  string_has c (pretty_N_go x s) →
  string_has c s ∨ ∃ d : N, c = pretty_N_char d.
Proof.
  induction (N.lt_wf_0 x) as [x _ IH]; intros s Hc.
  destruct (decide (x = 0)%N) as [->|Hx].
  - left. by rewrite pretty_N_go_0 in Hc.
  - rewrite pretty_N_go_step in Hc by lia.
    apply IH in Hc; [|apply N.div_lt; lia].
    destruct Hc as [[Hc|Hc]|Hc]; eauto.
Qed.

Lemma pretty_Z_chars (c : ascii) (z : Z) :
  string_has c (pretty z) → c = "-"%char ∨ ∃ d : N, c = pretty_N_char d.
Proof.
  assert (∀ p : positive, string_has c (pretty (N.pos p)) →
                          ∃ d : N, c = pretty_N_char d) as Hpos.
  { intros p. unfold pretty, pretty_N.
    rewrite decide_False by done. intros Hc.
    apply pretty_N_go_chars in Hc as [[]|Hc]. exact Hc. }
  destruct z as [|p|p]; unfold pretty, pretty_Z; simpl.
  - intros [<-|[]]. right. by exists 0%N.
  - intros Hc. right. by apply (Hpos p).
  - intros [<-|Hc]; [by left|]. right. by apply (Hpos p).
Qed.

Lemma pretty_N_char_not (c : ascii) :
  c = ","%char ∨ c = "_"%char → ∀ d : N, c ≠ pretty_N_char d.
Proof.
  intros Hc d. unfold pretty_N_char.
  destruct Hc as [-> | ->]; repeat case_match; discriminate.
Qed.

Lemma pretty_Z_no_sep (c : ascii) (z : Z) :
  c = ","%char ∨ c = "_"%char → ¬ string_has c (pretty z).
Proof.
  intros Hc Hin. apply pretty_Z_chars in Hin as [Hd | [d Hd]].
  - destruct Hc as [-> | ->]; discriminate.
  - by apply (pretty_N_char_not c Hc d).
Qed.

Lemma posKey_inj (x y x' y' : Z) :
  posKey x y = posKey x' y' → x = x' ∧ y = y'.
Proof.
  unfold posKey. intros H.
  apply append_sep_inj in H as [Hx Hy];
    [|apply pretty_Z_no_sep; by left..].
  split; by apply (inj pretty).
Qed.

Lemma cacheKey_inj (sx sy ex ey sx' sy' ex' ey' : Z) :
  cacheKey sx sy ex ey = cacheKey sx' sy' ex' ey' →
  sx = sx' ∧ sy = sy' ∧ ex = ex' ∧ ey = ey'.
Proof.
  unfold cacheKey. intros H.
  apply append_sep_inj in H as [Hsx H];
    [|apply pretty_Z_no_sep; by left..].
  apply append_sep_inj in H as [Hsy H];
    [|apply pretty_Z_no_sep; by right..].
  apply append_sep_inj in H as [Hex Hey];
    [|apply pretty_Z_no_sep; by left..].
  repeat split; by apply (inj pretty).
Qed.

(** ** Start equal to goal *)

(** The search takes the start node from the open set first and compares it
    with the goal before looking at any cell. *)
Lemma astar_start_is_goal (s : MapSystem) (x y : Z) :
  astar s x y x y = Some [(x, y)].
Proof. unfold astar, search_fuel. simpl. by rewrite !Z.eqb_refl. Qed.

Lemma self_paths_ok_empty : self_paths_ok ∅.
Proof. intros x y v H. by rewrite lookup_empty in H. Qed.

Lemma findPath_self_ok s sx sy ex ey b :
  self_paths_ok (pathCache s) →
  self_paths_ok (pathCache (findPath s sx sy ex ey b).1).
Proof.
  intros Hok. unfold findPath.
  destruct (if b then None else pathCache s !! cacheKey sx sy ex ey);
    simpl; [done|].
  intros x y v. rewrite lookup_insert. case_decide as Hk.
  - apply cacheKey_inj in Hk as (->&->&->&->).
    rewrite astar_start_is_goal. congruence.
  - apply Hok.
Qed.

Lemma check_spawns_self_ok spawns : ∀ s bx by_,
  self_paths_ok (pathCache s) →
  self_paths_ok (pathCache (check_spawns s spawns bx by_).1).
Proof.
  induction spawns as [|spawn rest IH]; intros s bx by_ Hok;
    cbn [check_spawns]; [done|].
  pose proof (findPath_self_ok s spawn.1 spawn.2 bx by_ true Hok) as Hf.
  destruct (findPath s spawn.1 spawn.2 bx by_ true) as [s' [p|]];
    simpl in *; [|done].
  destruct (length p =? 0)%nat; [done|]. by apply IH.
Qed.

Lemma canPlaceTower_self_ok s x y :
  self_paths_ok (pathCache s) →
  self_paths_ok (pathCache (canPlaceTower s x y).1).
Proof.
  intros Hok. unfold canPlaceTower.
  destruct (isCellPassable s x y false); simpl; [|done].
  destruct (playerBase s) as [pb|]; simpl; [|done].
  pose proof (check_spawns_self_ok (enemySpawns s)
    (set_grid s (write_cell (grid s) x y 1)) pb.1 pb.2 Hok) as Hs.
  by destruct (check_spawns _ _ _ _) as [s2 ok].
Qed.

Lemma setCellType_cache s x y t :
  pathCache (setCellType s x y t) = ∅ ∨
  pathCache (setCellType s x y t) = pathCache s.
Proof. unfold setCellType. destruct (isValidGridCoords s x y); auto. Qed.

Lemma do_call_self_ok s c :
  self_paths_ok (pathCache s) → self_paths_ok (pathCache (do_call s c)).
Proof.
  intros Hok. destruct c; simpl.
  - unfold setPlayerBase. destruct (isValidGridCoords s x y); [|done].
    destruct (setCellType_cache (set_playerBase s (Some (x, y))) x y 3)
      as [-> | ->]; [apply self_paths_ok_empty | done].
  - unfold addEnemySpawn. destruct (isValidGridCoords s x y); [|done].
    destruct (setCellType_cache
      (set_enemySpawns s (enemySpawns s ++ [(x, y)])) x y 4)
      as [-> | ->]; [apply self_paths_ok_empty | done].
  - unfold addObstacle. destruct (_ && _); simpl; [|done].
    destruct (setCellType_cache s x y 2) as [-> | ->];
      [apply self_paths_ok_empty | done].
  - unfold placeTower. pose proof (canPlaceTower_self_ok s x y Hok) as Hc.
    destruct (canPlaceTower s x y) as [s1 []]; simpl in *;
      [apply self_paths_ok_empty | done].
  - unfold removeTower. destruct (_ && _); simpl;
      [apply self_paths_ok_empty | done].
  - destruct (setCellType_cache s x y type) as [-> | ->];
      [apply self_paths_ok_empty | done].
  - by apply canPlaceTower_self_ok.
  - by apply findPath_self_ok.
Qed.

Lemma do_calls_self_ok cs : ∀ s,
  self_paths_ok (pathCache s) → self_paths_ok (pathCache (do_calls s cs)).
Proof.
  unfold do_calls. induction cs as [|c cs IH]; intros s Hok; simpl; [done|].
  by apply IH, do_call_self_ok.
Qed.

Lemma reachable_self_ok s : reachable s → self_paths_ok (pathCache s).
Proof.
  intros (w & h & cs & ->). apply do_calls_self_ok, self_paths_ok_empty.
Qed.

(** C10. On every map, for every coordinate pair (in bounds or not, whatever
    the cell holds) and either value of the flag, [findPath(x, y, x, y, b)]
    returns the one-cell path [(x, y)]. *)
Theorem findPath_start_is_goal (s : MapSystem) (x y : Z) (b : bool) :
  reachable s → (findPath s x y x y b).2 = Some [(x, y)].
Proof.
  intros Hr. apply reachable_self_ok in Hr. unfold findPath.
  destruct b; simpl; [apply astar_start_is_goal|].
  destruct (pathCache s !! cacheKey x y x y) as [v|] eqn:Hc; simpl.
  - by apply Hr in Hc.
  - apply astar_start_is_goal.
Qed.

Lemma findPath_start_is_goal_witness :
  reachable corridor ∧
  getCellType corridor 1 0 = Some OBSTACLE ∧
  (findPath corridor 1 0 1 0 false).2 = Some [(1, 0)] ∧
  getCellType corridor (-5) 7 = Some OUT_OF_BOUNDS ∧
  (findPath corridor (-5) 7 (-5) 7 true).2 = Some [(-5, 7)].
Proof.
  assert (reachable corridor) as Hr by (by eexists _, _, _).
  split; [exact Hr|]. split; [reflexivity|].
  split; [apply (findPath_start_is_goal corridor 1 0 false Hr)|].
  split; [reflexivity|].
  apply (findPath_start_is_goal corridor (-5) 7 true Hr).
Defined.

(** ** The sorted open set *)

Lemma insert_by_f_perm (n : PathNode) (l : list PathNode) :
  insert_by_f n l ≡ₚ n :: l.
Proof.
  induction l as [|m l IH]; simpl; [done|].
  destruct (node_f n <=? node_f m); [done|].
  rewrite IH. apply Permutation_swap.
Qed.

Lemma sort_by_f_perm (l : list PathNode) : sort_by_f l ≡ₚ l.
Proof.
  induction l as [|n l IH]; simpl; [done|].
  by rewrite insert_by_f_perm, IH.
Qed.

Lemma insert_by_f_head_least (n : PathNode) (l : list PathNode) :
  head_least l → head_least (insert_by_f n l).
Proof.
  destruct l as [|m l]; simpl; [done|]. intros Hm.
  destruct (Z.leb_spec (node_f n) (node_f m)) as [Hle|Hlt]; simpl.
  - constructor; [done|].
    eapply Forall_impl; [exact Hm|]. simpl. intros; lia.
  - rewrite insert_by_f_perm. constructor; [lia | done].
Qed.

Lemma sort_by_f_head_least (l : list PathNode) : head_least (sort_by_f l).
Proof.
  induction l as [|n l IH]; simpl; [done|].
  by apply insert_by_f_head_least.
Qed.

Lemma sort_by_f_least (l : list PathNode) (c : PathNode) (rest : list PathNode) :
  sort_by_f l = c :: rest → ∀ n, n ∈ l → node_f c <= node_f n.
Proof.
  intros Hs n Hn. pose proof (sort_by_f_head_least l) as Hh.
  rewrite <-(sort_by_f_perm l), Hs in Hn. rewrite Hs in Hh. simpl in Hh.
  apply elem_of_cons in Hn as [->|Hn]; [lia|].
  rewrite Forall_forall in Hh. by apply Hh.
Qed.

Lemma search_loop_step (fuel : nat) (s : MapSystem) (endX endY : Z)
    (openSet : list PathNode) (closedSet : gset string) :
  search_loop (S fuel) s endX endY openSet closedSet
  = match sort_by_f openSet with
    | [] => Some None
    | currentNode :: rest =>
        if (node_x currentNode =? endX) && (node_y currentNode =? endY)
        then Some (Some (rev (walk_parents currentNode)))
        else
          search_loop fuel s endX endY
            (foldl (visit_neighbor s endX endY currentNode
                      ({[ posKey (node_x currentNode) (node_y currentNode) ]}
                       ∪ closedSet))
                   rest (neighbors currentNode))
            ({[ posKey (node_x currentNode) (node_y currentNode) ]}
             ∪ closedSet)
    end.
Proof. reflexivity. Qed.

(** ** The search loop ends *)

Lemma all_cells_valid (s : MapSystem) (x y : Z) :
  isValidGridCoords s x y = true → (x, y) ∈ all_cells s.
Proof.
  rewrite isValidGridCoords_true. intros [Hx Hy].
  unfold all_cells. rewrite list_elem_of_In, in_prod_iff, <-!list_elem_of_In.
  rewrite !elem_of_seqZ. lia.
Qed.

Lemma all_cells_length (s : MapSystem) :
  length (all_cells s) = (gridWidth s * gridHeight s)%nat.
Proof.
  unfold all_cells. rewrite length_prod, !length_seqZ. lia.
Qed.

Lemma isCellPassable_valid (s : MapSystem) (x y : Z) (b : bool) :
  isCellPassable s x y b = true → isValidGridCoords s x y = true.
Proof. unfold isCellPassable. by destruct (isValidGridCoords s x y). Qed.

(** The loop is bounded by [work]: taking the node out of the open set
    lowers it by one, and no visit of a neighbour raises it. *)
Section Termination.
Variable s : MapSystem.
Variables endX endY : Z.

Lemma filter_length_mono (P Q : Z * Z → Prop)
    `{!∀ p, Decision (P p)} `{!∀ p, Decision (Q p)} (l : list (Z * Z)) :
  (∀ p, p ∈ l → Q p → P p) →
  (length (filter Q l) ≤ length (filter P l))%nat.
Proof.
  induction l as [|a l IH]; intros HQP; [done|].
  rewrite !filter_cons.
  assert (length (filter Q l) ≤ length (filter P l))%nat as Hl.
  { apply IH. intros p Hp. apply HQP. by right. }
  destruct (decide (Q a)) as [HQ|HQ].
  - rewrite decide_True by (apply HQP; [by left | done]). simpl. lia.
  - destruct (decide (P a)); simpl; lia.
Qed.

Lemma filter_length_lt (P Q : Z * Z → Prop)
    `{!∀ p, Decision (P p)} `{!∀ p, Decision (Q p)}
    (l : list (Z * Z)) (a : Z * Z) :
  (∀ p, p ∈ l → Q p → P p) → a ∈ l → P a → ¬ Q a →
  (length (filter Q l) < length (filter P l))%nat.
Proof.
  induction l as [|b l IH]; intros HQP Ha HPa HQa.
  - by apply elem_of_nil in Ha.
  - rewrite !filter_cons.
    assert (∀ p, p ∈ l → Q p → P p) as HQP'.
    { intros p Hp. apply HQP. by right. }
    apply elem_of_cons in Ha as [<-|Ha].
    + destruct (decide (Q a)); [done|]. destruct (decide (P a)); [|done].
      pose proof (filter_length_mono P Q l HQP'). simpl. lia.
    + specialize (IH HQP' Ha HPa HQa).
      destruct (decide (Q b)) as [HQ|HQ].
      * rewrite decide_True by (apply HQP; [by left | done]). simpl. lia.
      * destruct (decide (P b)); simpl; lia.
Qed.

Lemma visit_neighbor_work (currentNode : PathNode) (closedSet : gset string)
    (openSet : list PathNode) (v : Z * Z) :
  (work s (visit_neighbor s endX endY currentNode closedSet openSet v) closedSet
   ≤ work s openSet closedSet)%nat.
Proof.
  unfold visit_neighbor.
  destruct (isCellPassable s v.1 v.2 true) eqn:Hp; simpl; [|done].
  case_bool_decide as Hcl; [done|].
  destruct (list_find _ openSet) as [[i n]|] eqn:Hfind.
  - destruct (node_g currentNode + 1 <? node_g n); [|done].
    apply list_find_Some in Hfind as (Hi & _ & _).
    unfold work.
    rewrite list_fmap_insert, length_insert.
    rewrite (list_insert_id (coords <$> openSet) i); [done|].
    rewrite list_lookup_fmap, Hi. done.
  - apply list_find_None in Hfind. rewrite Forall_forall in Hfind.
    unfold work. rewrite length_app. simpl.
    assert (length (filter (unseen s (coords <$> openSet ++ [newPathNode v.1 v.2
               (Some currentNode) (node_g currentNode + 1)
               (_heuristic v (endX, endY))]) closedSet) (all_cells s))
            < length (filter (unseen s (coords <$> openSet) closedSet)
                        (all_cells s)))%nat;
      [|lia].
    apply (filter_length_lt _ _ _ v).
    + intros p _ (H1 & H2 & H3). repeat split; try done.
      intros Hin. apply H3. rewrite fmap_app. apply elem_of_app. by left.
    + destruct v as [vx vy]. apply all_cells_valid.
      by eapply isCellPassable_valid.
    + repeat split; try done.
      intros Hin. apply list_elem_of_fmap in Hin as (n & Hn & Hin).
      apply (Hfind n Hin). by rewrite Hn.
    + intros (_ & _ & H3). apply H3. rewrite fmap_app. apply elem_of_app.
      right. destruct v. simpl. by left.
Qed.

Lemma foldl_visit_work (currentNode : PathNode) (closedSet : gset string)
    (vs : list (Z * Z)) : ∀ openSet : list PathNode,
  (work s (foldl (visit_neighbor s endX endY currentNode closedSet) openSet vs)
        closedSet
   ≤ work s openSet closedSet)%nat.
Proof.
  induction vs as [|v vs IH]; intros openSet; simpl; [done|].
  etrans; [apply IH | apply visit_neighbor_work].
Qed.

Lemma take_node_work (openSet : list PathNode) (closedSet : gset string)
    (c : PathNode) (rest : list PathNode) :
  sort_by_f openSet = c :: rest →
  (work s rest ({[ posKey (node_x c) (node_y c) ]} ∪ closedSet)
   < work s openSet closedSet)%nat.
Proof.
  intros Hs. pose proof (sort_by_f_perm openSet) as Hperm.
  rewrite Hs in Hperm. unfold work.
  rewrite <-(Permutation_length Hperm). simpl.
  assert (length (filter (unseen s (coords <$> rest)
            ({[ posKey (node_x c) (node_y c) ]} ∪ closedSet)) (all_cells s))
          ≤ length (filter (unseen s (coords <$> openSet) closedSet)
                      (all_cells s)))%nat;
    [|lia].
  apply filter_length_mono. intros p _ (H1 & H2 & H3).
  repeat split; [done|set_solver|].
  intros Hin. apply list_elem_of_fmap in Hin as (n & Hn & Hin).
  rewrite <-Hperm in Hin. apply elem_of_cons in Hin as [->|Hin].
  - apply H2. rewrite Hn. simpl. set_solver.
  - apply H3. apply list_elem_of_fmap. eauto.
Qed.

Lemma search_loop_enough_fuel (fuel : nat) :
  ∀ (openSet : list PathNode) (closedSet : gset string),
  (work s openSet closedSet < fuel)%nat →
  is_Some (search_loop fuel s endX endY openSet closedSet).
Proof.
  induction fuel as [|fuel IH]; intros openSet closedSet Hw; [lia|].
  rewrite search_loop_step.
  destruct (sort_by_f openSet) as [|c rest] eqn:Hs; [by eexists|].
  destruct (_ && _); [by eexists|].
  apply IH. pose proof (take_node_work openSet closedSet c rest Hs).
  pose proof (foldl_visit_work c
    ({[ posKey (node_x c) (node_y c) ]} ∪ closedSet) (neighbors c) rest).
  lia.
Qed.

Lemma work_one_node (n : PathNode) :
  (work s [n] ∅ ≤ S (gridWidth s * gridHeight s))%nat.
Proof.
  unfold work.
  pose proof (length_filter (unseen s (coords <$> [n]) ∅) (all_cells s)) as Hl.
  rewrite all_cells_length in Hl. cbn [length]. lia.
Qed.
End Termination.

(** The fuel [findPath] gives its search is never used up: every search
    ends with a path or with an empty open set. *)
Lemma search_loop_total (s : MapSystem) (startX startY endX endY : Z) :
  is_Some (search_loop (search_fuel s) s endX endY
             [startNode startX startY endX endY] ∅).
Proof.
  apply search_loop_enough_fuel. unfold search_fuel.
  pose proof (work_one_node s (startNode startX startY endX endY)). lia.
Qed.

(** ** The search on a grid without blocked cells *)

Lemma neighbors_adjacent (c : PathNode) : neighbors c = adjacent (coords c).
Proof. reflexivity. Qed.

Lemma at_goal_true (c : PathNode) (endX endY : Z) :
  (node_x c =? endX) && (node_y c =? endY) = true ↔ coords c = (endX, endY).
Proof.
  unfold coords. rewrite andb_true_iff, !Z.eqb_eq.
  split; [by intros [-> ->] | by intros [= -> ->]].
Qed.

Ltac manhattan := unfold _heuristic, coords in *; simpl in *; lia.

(** A position is visited around [u] exactly when it is one step away. *)
Lemma adjacent_spec (u v : Z * Z) : v ∈ adjacent u ↔ _heuristic v u = 1.
Proof.
  destruct u as [a b], v as [c d]. unfold adjacent, _heuristic. simpl.
  rewrite !elem_of_cons, elem_of_nil. split.
  - intros [[= -> ->] | [[= -> ->] | [[= -> ->] | [[= -> ->] | []]]]]; lia.
  - intros H.
    assert ((c = a ∧ d = b - 1) ∨ (c = a ∧ d = b + 1) ∨
            (c = a - 1 ∧ d = b) ∨ (c = a + 1 ∧ d = b))
      as [[-> ->] | [[-> ->] | [[-> ->] | [-> ->]]]] by lia; auto.
Qed.

(** On a grid where every cell in bounds is passable the distance between
    two cells is their Manhattan distance, and the heuristic is exact along
    a shortest way.  The proof follows the loop with [search_inv]: by
    [all_reached] the open set always holds a node on a shortest way to any
    cell not yet closed, so the node with the least [f] has the least
    possible [g] ([least_is_optimal]); when the goal is taken, its parent
    chain has that many steps. *)
Section OpenGrid.
Variable s : MapSystem.
Variables startX startY endX endY : Z.

Hypothesis grid_open : ∀ x y,
  isValidGridCoords s x y = true → isCellPassable s x y true = true.
Hypothesis start_valid : isValidGridCoords s startX startY = true.
Hypothesis end_valid : isValidGridCoords s endX endY = true.

Lemma covered_weaken openSet closedSet v b b' :
  b <= b' → covered openSet closedSet v b → covered openSet closedSet v b'.
Proof.
  intros Hb [Hc | (n & Hn & Hv & Hg)]; [by left|].
  right. exists n. repeat split; [done..|lia].
Qed.

(** *** One neighbour *)

Section Visit.
Variable c : PathNode.
Variable closedSet : gset string.
Hypothesis c_steps : Z.of_nat (length (walk_parents c)) = node_g c + 1.
Hypothesis c_far : _heuristic (startX, startY) (coords c) <= node_g c.

#[local] Abbreviation visit := (visit_neighbor s endX endY c closedSet).


Lemma visit_nodup (openSet : list PathNode) (v : Z * Z) :
  NoDup (coords <$> openSet) → NoDup (coords <$> visit openSet v).
Proof.
  intros Hnd. unfold visit_neighbor.
  destruct (negb _ || _); [done|].
  destruct (list_find _ openSet) as [[i n]|] eqn:Hfind.
  - destruct (node_g c + 1 <? node_g n); [|done].
    apply list_find_Some in Hfind as (Hi & _ & _).
    rewrite list_fmap_insert.
    rewrite (list_insert_id (coords <$> openSet) i); [done|].
    by rewrite list_lookup_fmap, Hi.
  - apply list_find_None in Hfind. rewrite Forall_forall in Hfind.
    rewrite fmap_app. apply NoDup_app. repeat split; [done| |].
    + intros p Hp Hin. apply list_elem_of_fmap in Hp as (n & -> & Hn).
      simpl in Hin. apply list_elem_of_singleton in Hin.
      apply (Hfind n Hn). unfold coords in Hin. simpl in Hin.
      by injection Hin.
    + simpl. apply NoDup_singleton.
Qed.

Lemma visit_covered (openSet : list PathNode) (v w : Z * Z) (b : Z) :
  covered openSet closedSet w b → covered (visit openSet v) closedSet w b.
Proof.
  intros [Hc | (n & Hn & Hw & Hg)]; [by left|]. right.
  unfold visit_neighbor.
  destruct (negb _ || _); [by eauto|].
  destruct (list_find _ openSet) as [[i m]|] eqn:Hfind.
  - destruct (Z.ltb_spec (node_g c + 1) (node_g m)) as [Hlt|]; [|by eauto].
    apply list_find_Some in Hfind as (Hi & _ & _).
    apply list_elem_of_lookup in Hn as [j Hj].
    destruct (decide (j = i)) as [->|Hne].
    + assert (m = n) as -> by congruence.
      eexists. split.
      * apply list_elem_of_lookup. exists i.
        apply list_lookup_insert_eq. by eapply lookup_lt_Some.
      * split; [exact Hw | simpl; lia].
    + exists n. split; [|done].
      apply list_elem_of_lookup. exists j.
      by rewrite list_lookup_insert_ne.
  - exists n. split; [|done]. apply elem_of_app. by left.
Qed.


(** *** The four neighbours *)


Lemma foldl_visit_nodup (vs : list (Z * Z)) : ∀ openSet,
  NoDup (coords <$> openSet) → NoDup (coords <$> foldl visit openSet vs).
Proof.
  induction vs as [|v vs IH]; intros openSet Hnd; simpl; [done|].
  by apply IH, visit_nodup.
Qed.

Lemma foldl_visit_covered (vs : list (Z * Z)) (w : Z * Z) (b : Z) :
  ∀ openSet, covered openSet closedSet w b →
             covered (foldl visit openSet vs) closedSet w b.
Proof.
  induction vs as [|v vs IH]; intros openSet Hc; simpl; [done|].
  by apply IH, visit_covered.
Qed.

End Visit.

(** *** Every cell is reached at its Manhattan distance *)




(** *** One turn of the loop keeps the invariant *)




(** *** The loop returns a path of Manhattan length *)


End OpenGrid.

(** ** When the cache agrees with the grid *)

Lemma isValidGridCoords_terrain s s' x y :
  same_terrain s s' → isValidGridCoords s' x y = isValidGridCoords s x y.
Proof. intros (Hw&Hh&_). unfold isValidGridCoords. by rewrite Hw, Hh. Qed.

Lemma isCellPassable_terrain s s' x y b :
  same_terrain s s' → isCellPassable s' x y b = isCellPassable s x y b.
Proof.
  intros Ht. unfold isCellPassable.
  rewrite (isValidGridCoords_terrain s s') by done.
  destruct Ht as (_&_&Hg&_). by rewrite Hg.
Qed.














(** ** Maps built through the public surface *)

Lemma cell_at_same_index (gr : list (list Z)) (x y x' y' : Z) :
  Z.to_nat x' = Z.to_nat x → Z.to_nat y' = Z.to_nat y →
  cell_at gr x' y' = cell_at gr x y.
Proof. unfold cell_at. by intros -> ->. Qed.

Lemma cell_at_write_is_Some (gr : list (list Z)) (x y v x' y' : Z) :
  is_Some (cell_at gr x' y') → is_Some (cell_at (write_cell gr x y v) x' y').
Proof.
  intros Hs.
  destruct (decide ((Z.to_nat x', Z.to_nat y') = (Z.to_nat x, Z.to_nat y)))
    as [[= Hx Hy]|Hne].
  - rewrite (cell_at_same_index gr x y x' y') in Hs by done.
    rewrite (cell_at_same_index _ x y x' y') by done.
    by rewrite cell_at_write_eq.
  - by rewrite cell_at_write_ne.
Qed.

Lemma grid_wf_new (w h : nat) : grid_wf (newMapSystem w h).
Proof.
  intros x y [Hx Hy]%isValidGridCoords_true. simpl in *.
  unfold cell_at. rewrite lookup_replicate_2 by lia.
  rewrite lookup_replicate_2 by lia. by eexists.
Qed.

Lemma grid_wf_terrain s s' : same_terrain s s' → grid_wf s → grid_wf s'.
Proof.
  intros Ht Hwf x y Hv. rewrite (isValidGridCoords_terrain s s') in Hv by done.
  destruct Ht as (_&_&->&_). by apply Hwf.
Qed.


Lemma setCellType_wf s x y t : grid_wf s → grid_wf (setCellType s x y t).
Proof.
  intros Hwf. unfold setCellType.
  destruct (isValidGridCoords s x y); [|done].
  intros x' y' Hv. simpl. apply cell_at_write_is_Some. by apply Hwf.
Qed.





Lemma do_call_wf s c : grid_wf s → grid_wf (do_call s c).
Proof.
  intros Hwf. destruct c; simpl.
  - unfold setPlayerBase. destruct (isValidGridCoords s x y); [|done].
    by apply setCellType_wf.
  - unfold addEnemySpawn. destruct (isValidGridCoords s x y); [|done].
    by apply setCellType_wf.
  - unfold addObstacle. destruct (_ && _); simpl; [|done].
    by apply setCellType_wf.
  - unfold placeTower.
    pose proof (canPlaceTower_same_terrain s x y) as Ht.
    destruct (canPlaceTower s x y) as [s1 ok]; simpl in *.
    pose proof (grid_wf_terrain _ _ Ht Hwf) as Hwf1.
    destruct ok; simpl; [|done]. by apply setCellType_wf.
  - unfold removeTower. destruct (_ && _); simpl; [|done].
    by apply setCellType_wf.
  - by apply setCellType_wf.
  - eapply grid_wf_terrain; [apply canPlaceTower_same_terrain | done].
  - eapply grid_wf_terrain; [apply findPath_same_terrain | done].
Qed.

(** In every state the methods lead to, a cell read that follows a passed
    bounds check is defined. *)
Lemma reachable_wf s : reachable s → grid_wf s.
Proof.
  intros (w & h & cs & ->). unfold do_calls.
  generalize (grid_wf_new w h). generalize (newMapSystem w h).
  induction cs as [|c cs IH]; intros s0 Hwf; simpl; [done|].
  by apply IH, do_call_wf.
Qed.







(** ** Obstacles *)

(** C8. [addObstacle(x, y)] returns true exactly when (x, y) is in bounds
    and the cell is Empty; then the cell becomes Obstacle; otherwise the map
    is left as it was.  The function has no failing branch, and its one
    cell read, made after the bounds check, finds the cell: in every state
    the methods lead to, a cell in bounds exists. *)
Theorem addObstacle_spec (s : MapSystem) (x y : Z) :
  ((addObstacle s x y).2 = true ↔
   isValidGridCoords s x y = true ∧ getCellType s x y = Some EMPTY) ∧
  ((addObstacle s x y).2 = true →
   getCellType (addObstacle s x y).1 x y = Some OBSTACLE) ∧
  ((addObstacle s x y).2 = false → (addObstacle s x y).1 = s) ∧
  (reachable s → isValidGridCoords s x y = true →
   is_Some (cell_at (grid s) x y)).
Proof.
  assert (reachable s → isValidGridCoords s x y = true →
          is_Some (cell_at (grid s) x y)) as Hread.
  { intros Hr%reachable_wf Hv. by apply Hr. }
  unfold addObstacle, getCellType.
  destruct (isValidGridCoords s x y) eqn:Hv; simpl.
  - destruct (cell_is (cell_at (grid s) x y) 0) eqn:Hc; simpl.
    + apply cell_is_true in Hc. repeat split; try done.
      intros _. rewrite setCellType_valid by done.
      unfold isValidGridCoords in *. simpl. rewrite Hv.
      apply cell_at_write_eq. by rewrite Hc.
    + repeat split; try done.
      intros [_ Hs]. rewrite Hs in Hc. discriminate.
  - repeat split; try done. by intros [? _].
Qed.

Lemma addObstacle_spec_witness :
  getCellType (addObstacle (newMapSystem 2 2) 1 0).1 1 0 = Some OBSTACLE ∧
  (addObstacle corridor 1 0).1 = corridor ∧
  is_Some (cell_at (grid corridor) 2 2).
Proof.
  split; [|split].
  - apply (addObstacle_spec (newMapSystem 2 2) 1 0). reflexivity.
  - apply (addObstacle_spec corridor 1 0). reflexivity.
  - apply (addObstacle_spec corridor 2 2); [by eexists _, _, _ | reflexivity].
Defined.

(** * The search on any grid *)

Lemma rev_head_last {A} (l : list A) : head (rev l) = last l.
Proof.
  induction l as [|a l IH] using rev_ind; [done|].
  by rewrite rev_app_distr, last_snoc.
Qed.

Lemma rev_last_head {A} (l : list A) : last (rev l) = head l.
Proof. destruct l as [|a l]; [done|]. simpl. by rewrite last_snoc. Qed.

Lemma walk_parents_cons (n : PathNode) :
  ∃ l, walk_parents n = coords n :: l.
Proof. destruct n as [x y [q|] g h f]; by eexists. Qed.

Lemma is_walk_snoc (s : MapSystem) (q : list (Z * Z)) (t : Z * Z) :
  is_walk s (q ++ [t]) = true ↔
  is_walk s q = true ∧
  ∀ t', last q = Some t' →
        t ∈ adjacent t' ∧ isCellPassable s t.1 t.2 true = true.
Proof.
  induction q as [|a [|b q] IH].
  - simpl. naive_solver.
  - simpl. rewrite andb_true_r, andb_true_iff, bool_decide_eq_true.
    split; [intros [??]; split; [done|]; by intros ? [= <-] | ].
    intros [_ H]. by apply H.
  - change (is_walk s ((a :: b :: q) ++ [t]))
      with (bool_decide (b ∈ adjacent a) && isCellPassable s b.1 b.2 true
            && is_walk s ((b :: q) ++ [t])).
    change (is_walk s (a :: b :: q))
      with (bool_decide (b ∈ adjacent a) && isCellPassable s b.1 b.2 true
            && is_walk s (b :: q)).
    rewrite last_cons_cons, !andb_true_iff, IH. tauto.
Qed.

Lemma is_walk_terrain s s' p :
  same_terrain s s' → is_walk s' p = is_walk s p.
Proof.
  intros Ht. induction p as [|a [|b q] IH]; [done..|].
  change (is_walk s' (a :: b :: q))
    with (bool_decide (b ∈ adjacent a) && isCellPassable s' b.1 b.2 true
          && is_walk s' (b :: q)).
  rewrite IH, (isCellPassable_terrain s s') by done. done.
Qed.

(** The steps of a walk are at least the Manhattan distance. *)
Lemma adjacent_step (a b t : Z * Z) :
  b ∈ adjacent a → _heuristic a t <= _heuristic b t + 1.
Proof. intros H%adjacent_spec. manhattan. Qed.

Lemma take_covered_any openSet closedSet c rest v b :
  sort_by_f openSet = c :: rest →
  covered openSet closedSet v b →
  covered rest ({[ posKey (node_x c) (node_y c) ]} ∪ closedSet) v b.
Proof.
  intros Hs [Hc | (n & Hn & Hco & Hg)].
  - left. apply elem_of_union. by right.
  - rewrite <-(sort_by_f_perm openSet), Hs in Hn.
    apply elem_of_cons in Hn as [->|Hn].
    + left. rewrite <-Hco. apply elem_of_union. left.
      by apply elem_of_singleton.
    + right. by exists n.
Qed.

Section AnyGrid.
Variable s : MapSystem.
Variables startX startY endX endY : Z.

Lemma within_walk openSet closedSet :
  search_gen s startX startY endX endY openSet closedSet →
  ∀ (p : list (Z * Z)) (t : Z * Z),
    walk_between s (startX, startY) t p →
    within openSet closedSet t (Z.of_nat (length p) - 1).
Proof.
  intros Hinv p. induction p as [|t0 q IH] using rev_ind;
    intros t (Hw & Hh & Hl); [done|].
  rewrite last_snoc in Hl. injection Hl as ->.
  apply is_walk_snoc in Hw as [Hwq Hstep].
  rewrite length_app. simpl.
  destruct (last q) as [t'|] eqn:Hlast.
  - destruct (Hstep t' eq_refl) as [Hadj Hpass].
    assert (head q = Some (startX, startY)) as Hhq.
    { destruct q; [done|]. exact Hh. }
    destruct (IH t') as [Hc | (n & Hn & Hg)]; [done|..].
    + destruct (gen_closed _ _ _ _ _ _ _ Hinv t' t
                  (Z.of_nat (length q) - 1) Hc) as [Hc' | (n & Hn & Hco & Hg)];
        [by exists q; split; [|lia] | done | done | by left |].
      right. exists n. split; [done|]. rewrite Hco. manhattan.
    + right. exists n. split; [done|].
      apply adjacent_spec in Hadj. manhattan.
  - apply last_None in Hlast. subst q. simpl in Hh. injection Hh as ->.
    destruct (gen_start _ _ _ _ _ _ _ Hinv) as [Hc | (n & Hn & Hco & Hg)];
      [by left|].
    right. exists n. split; [done|]. rewrite Hco. manhattan.
Qed.

(** The node taken from the open set has the fewest steps any walk to its
    cell can have. *)
Lemma least_is_shortest openSet closedSet c rest :
  search_gen s startX startY endX endY openSet closedSet →
  sort_by_f openSet = c :: rest →
  node_gen s startX startY endX endY closedSet c ∧
  ∀ k, walk_steps s (startX, startY) (coords c) k → node_g c <= k.
Proof.
  intros Hinv Hs.
  assert (c ∈ openSet) as Hc.
  { rewrite <-(sort_by_f_perm openSet), Hs. by left. }
  pose proof (gen_nodes _ _ _ _ _ _ _ Hinv) as Hok.
  rewrite Forall_forall in Hok.
  pose proof (Hok c Hc) as Hcok. split; [done|].
  destruct Hcok as (Hh & Hf & _ & _ & _ & Hncl).
  intros k (p & Hp & Hlen).
  destruct (within_walk _ _ Hinv p (coords c) Hp) as [Hcl | (n & Hn & Hg)];
    [done|].
  pose proof (sort_by_f_least _ _ _ Hs n Hn) as Hle.
  destruct (Hok n Hn) as (Hhn & Hfn & _).
  manhattan.
Qed.

Lemma visit_node_gen (c : PathNode) (closedSet : gset string)
    (openSet : list PathNode) (v : Z * Z) :
  node_gen s startX startY endX endY ∅ c →
  v ∈ adjacent (coords c) →
  Forall (node_gen s startX startY endX endY closedSet) openSet →
  Forall (node_gen s startX startY endX endY closedSet)
         (visit_neighbor s endX endY c closedSet openSet v).
Proof.
  intros (_ & _ & Hsteps & Hwalk & Hlast & _) Hadj Hok.
  unfold visit_neighbor.
  destruct (isCellPassable s v.1 v.2 true) eqn:Hp; simpl; [|done].
  case_bool_decide as Hcl; [done|].
  destruct (walk_parents_cons c) as [l Hl].
  assert (is_walk s (rev (walk_parents c) ++ [v]) = true) as Hwv.
  { apply is_walk_snoc. split; [done|]. intros t'.
    rewrite rev_last_head, Hl. by intros [= <-]. }
  assert (last (v :: walk_parents c) = Some (startX, startY)) as Hlv.
  { by rewrite Hl, last_cons_cons, <-Hl. }
  assert (Z.of_nat (length (v :: walk_parents c)) = node_g c + 1 + 1) as Hlen.
  { simpl length. lia. }
  destruct (list_find _ openSet) as [[i n]|] eqn:Hfind.
  - destruct (node_g c + 1 <? node_g n); [|done].
    apply list_find_Some in Hfind as (Hi & [Hx Hy] & _).
    apply Forall_insert; [done|].
    assert (node_gen s startX startY endX endY closedSet n)
      as (Hh & _ & _ & _ & _ & Hn).
    { rewrite Forall_forall in Hok. apply Hok.
      by eapply list_elem_of_lookup_2. }
    destruct v as [vx vy]; simpl in *; subst vx vy.
    repeat split; simpl; done.
  - apply Forall_app. split; [done|]. apply Forall_singleton.
    destruct v as [vx vy]; simpl in *.
    repeat split; simpl; done.
Qed.

Lemma foldl_visit_node_gen (c : PathNode) (closedSet : gset string)
    (vs : list (Z * Z)) : ∀ openSet,
  node_gen s startX startY endX endY ∅ c →
  vs ⊆ adjacent (coords c) →
  Forall (node_gen s startX startY endX endY closedSet) openSet →
  Forall (node_gen s startX startY endX endY closedSet)
         (foldl (visit_neighbor s endX endY c closedSet) openSet vs).
Proof.
  induction vs as [|v vs IH]; intros openSet Hc Hsub Hok; simpl; [done|].
  apply IH; [done | set_solver |].
  apply visit_node_gen; [done | set_solver | done].
Qed.

Lemma visit_covers_passable (c : PathNode) (closedSet : gset string)
    (openSet : list PathNode) (v : Z * Z) :
  isCellPassable s v.1 v.2 true = true →
  covered (visit_neighbor s endX endY c closedSet openSet v) closedSet v
          (node_g c + 1).
Proof.
  intros Hv. unfold visit_neighbor, covered. rewrite Hv. simpl.
  case_bool_decide as Hcl; [by left|]. right.
  destruct (list_find _ openSet) as [[i m]|] eqn:Hfind.
  - apply list_find_Some in Hfind as (Hi & [Hx Hy] & _).
    destruct (Z.ltb_spec (node_g c + 1) (node_g m)) as [Hlt|Hge].
    + eexists. split.
      * apply list_elem_of_lookup. exists i.
        apply list_lookup_insert_eq. by eapply lookup_lt_Some.
      * destruct v; simpl in *. split; [by subst | lia].
    + exists m. split; [by eapply list_elem_of_lookup_2|].
      destruct v; simpl in *. split; [unfold coords; by subst | lia].
  - eexists. split; [apply elem_of_app; right; by left|].
    destruct v; simpl. split; [done | lia].
Qed.

Lemma foldl_visit_covers_passable (c : PathNode) (closedSet : gset string)
    (vs : list (Z * Z)) : ∀ openSet v,
  v ∈ vs → isCellPassable s v.1 v.2 true = true →
  covered (foldl (visit_neighbor s endX endY c closedSet) openSet vs)
          closedSet v (node_g c + 1).
Proof.
  induction vs as [|v' vs IH]; intros openSet v Hin Hv; simpl.
  - by apply elem_of_nil in Hin.
  - apply elem_of_cons in Hin as [->|Hin]; [|by apply IH].
    by apply foldl_visit_covered, visit_covers_passable.
Qed.

Lemma search_gen_turn openSet closedSet c rest :
  search_gen s startX startY endX endY openSet closedSet →
  sort_by_f openSet = c :: rest →
  coords c ≠ (endX, endY) →
  search_gen s startX startY endX endY
    (foldl (visit_neighbor s endX endY c
              ({[ posKey (node_x c) (node_y c) ]} ∪ closedSet))
           rest (neighbors c))
    ({[ posKey (node_x c) (node_y c) ]} ∪ closedSet).
Proof.
  intros Hinv Hs Hgoal.
  destruct (least_is_shortest _ _ _ _ Hinv Hs) as (Hcgen & Hopt).
  pose proof (sort_by_f_perm openSet) as Hperm. rewrite Hs in Hperm.
  pose proof (gen_nodes _ _ _ _ _ _ _ Hinv) as Hnodes.
  pose proof (gen_nodup _ _ _ _ _ _ _ Hinv) as Hnd.
  rewrite <-Hperm in Hnodes, Hnd.
  apply Forall_cons in Hnodes as [_ Hrest].
  rewrite fmap_cons in Hnd. apply NoDup_cons in Hnd as [Hcnot Hnd].
  set (closedSet' := {[ posKey (node_x c) (node_y c) ]} ∪ closedSet).
  assert (node_gen s startX startY endX endY ∅ c) as Hc0.
  { destruct Hcgen as (?&?&?&?&?&_).
    repeat split; done || apply not_elem_of_empty. }
  assert (Forall (node_gen s startX startY endX endY closedSet') rest)
    as Hrest'.
  { rewrite Forall_forall in Hrest |- *. intros n Hn.
    destruct (Hrest n Hn) as (?&?&?&?&?&Hncl).
    repeat split; try done. unfold closedSet'.
    intros [Hk|Hk]%elem_of_union; [|done].
    apply elem_of_singleton in Hk. apply posKey_inj in Hk as [Hx Hy].
    apply Hcnot. apply list_elem_of_fmap. exists n.
    split; [|done]. unfold coords. by rewrite Hx, Hy. }
  split.
  - apply foldl_visit_node_gen; [done | by rewrite neighbors_adjacent | done].
  - by apply foldl_visit_nodup.
  - intros u v k Hu Hsteps Hadj Hv. unfold closedSet' in Hu.
    apply elem_of_union in Hu as [Hu|Hu].
    + apply elem_of_singleton in Hu. apply posKey_inj in Hu as [Hx Hy].
      assert (u = coords c) as -> by (destruct u; simpl in *; by subst).
      apply (covered_weaken _ _ _ (node_g c + 1));
        [specialize (Hopt k Hsteps); lia|].
      apply foldl_visit_covers_passable; [by rewrite neighbors_adjacent|done].
    + apply foldl_visit_covered. apply (take_covered_any openSet); [done|].
      by apply (gen_closed _ _ _ _ _ _ _ Hinv u v k).
  - apply foldl_visit_covered. apply (take_covered_any openSet); [done|].
    apply (gen_start _ _ _ _ _ _ _ Hinv).
  - unfold closedSet'. intros [Hk|Hk]%elem_of_union.
    + apply elem_of_singleton in Hk. apply posKey_inj in Hk as [Hx Hy].
      apply Hgoal. unfold coords. by rewrite Hx, Hy.
    + by apply (gen_goal _ _ _ _ _ _ _ Hinv).
Qed.

Lemma search_gen_start :
  search_gen s startX startY endX endY [startNode startX startY endX endY] ∅.
Proof.
  split.
  - apply Forall_singleton.
    repeat split; simpl; done || apply not_elem_of_empty.
  - simpl. apply NoDup_singleton.
  - intros u v k Hu. by apply not_elem_of_empty in Hu.
  - right. eexists. split; [by left|]. by split.
  - apply not_elem_of_empty.
Qed.

(** What the loop returns: a shortest walk from start to goal, or nothing
    when there is no walk. *)
Lemma search_loop_any_grid (fuel : nat) : ∀ openSet closedSet r,
  search_gen s startX startY endX endY openSet closedSet →
  search_loop fuel s endX endY openSet closedSet = Some r →
  match r with
  | Some p =>
      walk_between s (startX, startY) (endX, endY) p ∧
      ∀ q, walk_between s (startX, startY) (endX, endY) q →
           (length p ≤ length q)%nat
  | None => ¬ connected s (startX, startY) (endX, endY)
  end.
Proof.
  induction fuel as [|fuel IH]; intros openSet closedSet r Hinv Hr; [done|].
  rewrite search_loop_step in Hr.
  destruct (sort_by_f openSet) as [|c rest] eqn:Hs.
  - injection Hr as <-. intros (q & Hq).
    assert (openSet = []) as ->.
    { apply Permutation_nil_r. by rewrite <-Hs, sort_by_f_perm. }
    destruct (within_walk _ _ Hinv q _ Hq) as [Hcl | (n & Hn & _)].
    + by apply (gen_goal _ _ _ _ _ _ _ Hinv).
    + by apply elem_of_nil in Hn.
  - destruct ((node_x c =? endX) && (node_y c =? endY)) eqn:Hgoal.
    + apply at_goal_true in Hgoal.
      destruct (least_is_shortest _ _ _ _ Hinv Hs)
        as ((_ & _ & Hsteps & Hwalk & Hlast & _) & Hopt).
      injection Hr as <-. split.
      * split; [done|]. rewrite rev_head_last, rev_last_head.
        split; [done|].
        destruct (walk_parents_cons c) as [l ->]. by rewrite <-Hgoal.
      * intros q Hq. rewrite Hgoal in Hopt.
        specialize (Hopt (Z.of_nat (length q) - 1)).
        rewrite (length_rev (walk_parents c)).
        assert (node_g c <= Z.of_nat (length q) - 1); [|lia].
        apply Hopt. exists q. split; [done | lia].
    + eapply IH; [|exact Hr].
      apply (search_gen_turn openSet); [done | done|].
      intros Hg. apply at_goal_true in Hg. congruence.
Qed.

Lemma astar_any_grid :
  match astar s startX startY endX endY with
  | Some p =>
      walk_between s (startX, startY) (endX, endY) p ∧
      ∀ q, walk_between s (startX, startY) (endX, endY) q →
           (length p ≤ length q)%nat
  | None => ¬ connected s (startX, startY) (endX, endY)
  end.
Proof.
  unfold astar.
  destruct (search_loop_total s startX startY endX endY) as [r Hr].
  rewrite Hr.
  exact (search_loop_any_grid _ _ _ _ search_gen_start Hr).
Qed.
End AnyGrid.

(** ** What a search returns *)

(** A call of [findPath] that runs the search: forced, or with no entry
    under its key. *)
Lemma findPath_searches s sx sy ex ey b :
  b = true ∨ pathCache s !! cacheKey sx sy ex ey = None →
  (findPath s sx sy ex ey b).2 = astar s sx sy ex ey.
Proof.
  intros [-> | Hc]; [done|]. destruct b; [done|].
  by rewrite findPath_miss.
Qed.

(** X1. When [findPath] runs its search (the call is forced, or the cache
    has no entry for the pair) and returns a path, the path starts at the
    start cell, ends at the goal cell, moves one cell up, down, left or
    right at a time, and every cell after the first is passable for
    enemies. *)
Theorem findPath_returns_walk (s : MapSystem) (sx sy ex ey : Z) (b : bool)
    (p : list (Z * Z)) :
  b = true ∨ pathCache s !! cacheKey sx sy ex ey = None →
  (findPath s sx sy ex ey b).2 = Some p →
  is_walk s p = true ∧ head p = Some (sx, sy) ∧ last p = Some (ex, ey).
Proof.
  intros Hb. rewrite findPath_searches by done. intros Hp.
  pose proof (astar_any_grid s sx sy ex ey) as H. rewrite Hp in H.
  apply H.
Qed.

(** X2. The path a search of [findPath] returns is a shortest one: no walk
    from the start cell to the goal cell has fewer cells. *)
Theorem findPath_returns_shortest (s : MapSystem) (sx sy ex ey : Z)
    (b : bool) (p q : list (Z * Z)) :
  b = true ∨ pathCache s !! cacheKey sx sy ex ey = None →
  (findPath s sx sy ex ey b).2 = Some p →
  walk_between s (sx, sy) (ex, ey) q →
  (length p ≤ length q)%nat.
Proof.
  intros Hb. rewrite findPath_searches by done. intros Hp.
  pose proof (astar_any_grid s sx sy ex ey) as H. rewrite Hp in H.
  apply H.
Qed.

(** X3. A search of [findPath] returns [null] exactly when enemies cannot
    walk from the start cell to the goal cell. *)
Theorem findPath_null_iff_disconnected (s : MapSystem) (sx sy ex ey : Z)
    (b : bool) :
  b = true ∨ pathCache s !! cacheKey sx sy ex ey = None →
  ((findPath s sx sy ex ey b).2 = None ↔ ¬ connected s (sx, sy) (ex, ey)).
Proof.
  intros Hb. rewrite findPath_searches by done.
  pose proof (astar_any_grid s sx sy ex ey) as H.
  destruct (astar s sx sy ex ey) as [p|].
  - split; [done|]. intros Hn. destruct Hn. exists p. apply H.
  - done.
Qed.

Lemma findPath_returns_walk_witness :
  is_walk corridor [(0, 1); (1, 1); (2, 1)] = true ∧
  head [(0, 1); (1, 1); (2, 1)] = Some (0, 1) ∧
  last [(0, 1); (1, 1); (2, 1)] = Some (2, 1).
Proof.
  apply (findPath_returns_walk corridor 0 1 2 1 true); [by left|].
  vm_compute. reflexivity.
Defined.

Lemma findPath_returns_shortest_witness :
  let p : list (Z * Z) := [(0, 0); (1, 0); (2, 0)] in
  let q : list (Z * Z) := [(0, 0); (0, 1); (1, 1); (2, 1); (2, 0)] in
  (length p ≤ length q)%nat.
Proof.
  cbv zeta.
  apply (findPath_returns_shortest (newMapSystem 3 2) 0 0 2 0 false);
    [right | | repeat split]; vm_compute; reflexivity.
Defined.

Lemma findPath_null_iff_disconnected_witness :
  ¬ connected (set_grid corridor (write_cell (grid corridor) 1 1 TOWER))
      (0, 1) (2, 1).
Proof.
  apply (findPath_null_iff_disconnected
           (set_grid corridor (write_cell (grid corridor) 1 1 TOWER))
           0 1 2 1 true); [by left|].
  vm_compute. reflexivity.
Defined.

(** ** The turns of the loop *)

Lemma search_loop_more_fuel s endX endY (fuel : nat) :
  ∀ openSet closedSet r (extra : nat),
    search_loop fuel s endX endY openSet closedSet = Some r →
    search_loop (fuel + extra) s endX endY openSet closedSet = Some r.
Proof.
  induction fuel as [|fuel IH]; intros openSet closedSet r extra Hr; [done|].
  change (S fuel + extra)%nat with (S (fuel + extra)).
  rewrite search_loop_step in *.
  destruct (sort_by_f openSet) as [|c rest]; [done|].
  destruct (_ && _); [done|]. by apply IH.
Qed.

(** X4. The loop of [findPath] ends on every grid, from every start and
    for every goal, within [gridWidth * gridHeight + 2] turns: with that
    many turns or more the model's loop returns a result, and the same
    one. *)
Theorem search_ends_within_grid_size (s : MapSystem) (sx sy ex ey : Z)
    (fuel : nat) :
  (gridWidth s * gridHeight s + 2 ≤ fuel)%nat →
  search_loop fuel s ex ey [startNode sx sy ex ey] ∅
  = Some (astar s sx sy ex ey).
Proof.
  intros Hf. unfold astar.
  destruct (search_loop_total s sx sy ex ey) as [r Hr]. rewrite Hr.
  replace fuel with (search_fuel s + (fuel - search_fuel s))%nat
    by (unfold search_fuel; lia).
  by apply search_loop_more_fuel.
Qed.

Lemma search_ends_within_grid_size_witness :
  search_loop 100 corridor 2 1 [startNode 0 1 2 1] ∅
  = Some (astar corridor 0 1 2 1).
Proof.
  apply (search_ends_within_grid_size corridor 0 1 2 1 100).
  vm_compute. lia.
Defined.

(** ** The placement check, in terms of walks *)

Lemma connected_terrain s s' a b :
  same_terrain s s' → connected s' a b ↔ connected s a b.
Proof.
  intros Ht. unfold connected, walk_between.
  by setoid_rewrite (is_walk_terrain s s' _ Ht).
Qed.

Lemma astar_Some_connected s (a b : Z * Z) p :
  astar s a.1 a.2 b.1 b.2 = Some p → connected s a b ∧ p ≠ [].
Proof.
  intros Hp. pose proof (astar_any_grid s a.1 a.2 b.1 b.2) as H.
  rewrite Hp in H. destruct H as [Hw _]. destruct a, b. split.
  - by exists p.
  - destruct Hw as (_ & Hh & _). by destruct p.
Qed.

Lemma astar_None_disconnected s (a b : Z * Z) :
  astar s a.1 a.2 b.1 b.2 = None → ¬ connected s a b.
Proof.
  intros Hp. pose proof (astar_any_grid s a.1 a.2 b.1 b.2) as H.
  rewrite Hp in H. by destruct a, b.
Qed.

Lemma check_spawns_connected spawns : ∀ s bx by_,
  (check_spawns s spawns bx by_).2 = true ↔
  ∀ sp, sp ∈ spawns → connected s sp (bx, by_).
Proof.
  induction spawns as [|spawn rest IH]; intros s bx by_;
    cbn [check_spawns].
  - split; [|done]. intros _ sp Hsp. by apply elem_of_nil in Hsp.
  - rewrite findPath_forced.
    set (s' := count_search _).
    assert (same_terrain s s') as Ht by done.
    destruct (astar s spawn.1 spawn.2 bx by_) as [p|] eqn:Hp.
    + apply (astar_Some_connected s spawn (bx, by_)) in Hp as [Hc Hne].
      destruct p as [|c0 p]; [done|]. simpl.
      rewrite IH. split.
      * intros Hrest sp [->|Hsp]%elem_of_cons; [done|].
        by apply (connected_terrain s s'), Hrest.
      * intros Hall sp Hsp. apply (connected_terrain s s'); [done|].
        apply Hall. by right.
    + apply (astar_None_disconnected s spawn (bx, by_)) in Hp.
      simpl. split; [done|]. intros Hall. destruct Hp. apply Hall. by left.
Qed.

Lemma canPlaceTower_walks (s : MapSystem) (x y : Z) :
  (canPlaceTower s x y).2 = true ↔
  isValidGridCoords s x y = true ∧ getCellType s x y = Some EMPTY ∧
  ∃ pb, playerBase s = Some pb ∧
        ∀ sp, sp ∈ enemySpawns s → connected (tower_at s x y) sp pb.
Proof.
  unfold canPlaceTower, isCellPassable, getCellType.
  destruct (isValidGridCoords s x y) eqn:Hv; simpl;
    [|split; [done | by intros [? _]]].
  destruct (cell_is (cell_at (grid s) x y) 0) eqn:Hc; simpl.
  - apply cell_is_true in Hc. rewrite Hc. simpl.
    destruct (playerBase s) as [pb|] eqn:Hpb; simpl.
    + pose proof (check_spawns_connected (enemySpawns s) (tower_at s x y)
                    pb.1 pb.2) as Hs.
      unfold tower_at, TOWER in Hs.
      destruct (check_spawns _ _ _ _) as [s2 ok]; simpl in *.
      rewrite Hs. destruct pb as [bx by_]. simpl.
      split; [intros H; repeat split; eauto|].
      intros (_ & _ & pb & [= <-] & H). exact H.
    + split; [done|]. by intros (_ & _ & pb & ? & _).
  - split; [done|]. intros (_ & Hs & _).
    rewrite Hs in Hc. discriminate.
Qed.

(** X5. [canPlaceTower(x, y)] returns true exactly when (x, y) is in
    bounds, the cell is Empty, a base is registered, and on the grid with a
    tower written at (x, y) enemies can still walk from every registered
    spawn to the base. *)
Theorem canPlaceTower_iff (s : MapSystem) (x y : Z) :
  (canPlaceTower s x y).2 = true ↔
  isValidGridCoords s x y = true ∧ getCellType s x y = Some EMPTY ∧
  ∃ pb, playerBase s = Some pb ∧
        ∀ sp, sp ∈ enemySpawns s → connected (tower_at s x y) sp pb.
Proof. split; intros H; by apply canPlaceTower_walks. Qed.

(** X6. The answer of [canPlaceTower] depends on the grid, the base and
    the spawns only, not on what the cache holds or on earlier queries: on
    two maps with the same terrain the answers agree. *)
Theorem canPlaceTower_terrain_only (s s' : MapSystem) (x y : Z) :
  same_terrain s s' →
  (canPlaceTower s' x y).2 = (canPlaceTower s x y).2.
Proof.
  intros Ht. apply eq_true_iff_eq.
  rewrite !canPlaceTower_walks.
  rewrite (isValidGridCoords_terrain s s'), (same_terrain_getCellType s s')
    by done.
  assert (same_terrain (tower_at s x y) (tower_at s' x y)) as Htt.
  { destruct Ht as (?&?&Hg&?&?). unfold tower_at, same_terrain. simpl.
    by rewrite Hg. }
  destruct Ht as (_&_&_&->&->).
  by setoid_rewrite (connected_terrain _ _ _ _ Htt).
Qed.

Lemma canPlaceTower_iff_witness :
  isValidGridCoords corridor 0 0 = true ∧
  getCellType corridor 0 0 = Some EMPTY ∧
  ∃ pb, playerBase corridor = Some pb ∧
        ∀ sp, sp ∈ enemySpawns corridor →
              connected (tower_at corridor 0 0) sp pb.
Proof.
  apply (canPlaceTower_iff corridor 0 0). vm_compute. reflexivity.
Defined.

Lemma canPlaceTower_terrain_only_witness :
  (canPlaceTower (findPath (canPlaceTower corridor 1 1).1 0 1 2 1 false).1
                 1 1).2
  = (canPlaceTower corridor 1 1).2.
Proof.
  apply (canPlaceTower_terrain_only corridor).
  repeat split; vm_compute; reflexivity.
Defined.

(** ** Placing and removing towers *)

Lemma valid_index_ne (s : MapSystem) (x y cx cy : Z) :
  isValidGridCoords s x y = true → isValidGridCoords s cx cy = true →
  (cx, cy) ≠ (x, y) →
  (Z.to_nat cx, Z.to_nat cy) ≠ (Z.to_nat x, Z.to_nat y).
Proof.
  intros [??]%isValidGridCoords_true [??]%isValidGridCoords_true Hne [= Hx Hy].
  apply Hne. f_equal; lia.
Qed.

(** A committed write changes the cell written and no other. *)
Lemma setCellType_cells (s : MapSystem) (x y t cx cy : Z) :
  isValidGridCoords s x y = true → is_Some (cell_at (grid s) x y) →
  getCellType (setCellType s x y t) cx cy
  = if decide ((cx, cy) = (x, y)) then Some t else getCellType s cx cy.
Proof.
  intros Hv Hs. rewrite setCellType_valid by done.
  unfold getCellType.
  change (isValidGridCoords (invalidatePathCache _) cx cy)
    with (isValidGridCoords s cx cy).
  cbn [grid invalidatePathCache set_pathCache set_grid].
  case_decide as Heq.
  - injection Heq as -> ->. rewrite Hv. by apply cell_at_write_eq.
  - destruct (isValidGridCoords s cx cy) eqn:Hc; [|done].
    apply cell_at_write_ne. by apply (valid_index_ne s).
Qed.

Lemma placeTower_true_state (s : MapSystem) (x y : Z) :
  (canPlaceTower s x y).2 = true →
  placeTower s x y
  = (invalidatePathCache (setCellType (canPlaceTower s x y).1 x y 1), true).
Proof.
  unfold placeTower. destruct (canPlaceTower s x y) as [s1 ok]. simpl.
  by intros ->.
Qed.

Lemma placeTower_terrain (s : MapSystem) (x y : Z) :
  (canPlaceTower s x y).2 = true →
  same_terrain (tower_at s x y) (placeTower s x y).1.
Proof.
  intros Hok. rewrite placeTower_true_state by done.
  apply canPlaceTower_walks in Hok as (Hv & _).
  destruct (canPlaceTower_same_terrain s x y) as (Hw&Hh&Hg&Hpb&Hsp).
  rewrite setCellType_valid
    by (by rewrite (isValidGridCoords_terrain s);
        [|apply canPlaceTower_same_terrain]).
  unfold same_terrain, tower_at. simpl. by rewrite Hg.
Qed.

(** X7. When [placeTower(x, y)] returns true, the cell (x, y) holds a
    tower, every other cell reads as before, the cache is empty, and
    enemies can still walk from every registered spawn to the base on the
    new grid. *)
Theorem placeTower_keeps_spawns_connected (s : MapSystem) (x y : Z) :
  (placeTower s x y).2 = true →
  getCellType (placeTower s x y).1 x y = Some TOWER ∧
  (∀ cx cy, (cx, cy) ≠ (x, y) →
            getCellType (placeTower s x y).1 cx cy = getCellType s cx cy) ∧
  pathCache (placeTower s x y).1 = ∅ ∧
  all_connected (placeTower s x y).1.
Proof.
  intros Hp.
  assert ((canPlaceTower s x y).2 = true) as Hok.
  { unfold placeTower in Hp. by destruct (canPlaceTower s x y) as [s1 []]. }
  pose proof (placeTower_terrain s x y Hok) as Ht.
  pose proof (proj1 (canPlaceTower_walks s x y) Hok)
    as (Hv & Hc & pb & Hpb & Hall).
  assert (is_Some (cell_at (grid s) x y)) as Hsome.
  { unfold getCellType in Hc. rewrite Hv in Hc. by rewrite Hc. }
  assert (∀ cx cy, getCellType (placeTower s x y).1 cx cy
                   = getCellType (setCellType s x y 1) cx cy) as Hcells.
  { intros cx cy.
    rewrite (same_terrain_getCellType _ _ cx cy Ht).
    rewrite setCellType_valid by done. done. }
  split; [|split; [|split]].
  - rewrite Hcells, setCellType_cells by done. by rewrite decide_True.
  - intros cx cy Hne.
    rewrite Hcells, setCellType_cells by done. by rewrite decide_False.
  - by rewrite placeTower_true_state.
  - destruct Ht as (Hw&Hh&Hg&Hpb'&Hsp).
    exists pb. split; [by rewrite Hpb'|].
    intros sp Hsp'. rewrite Hsp in Hsp'.
    apply (connected_terrain (tower_at s x y)); [by repeat split|].
    by apply Hall.
Qed.

Lemma placeTower_keeps_spawns_connected_witness :
  getCellType (placeTower corridor 0 0).1 0 0 = Some TOWER ∧
  (∀ cx cy, (cx, cy) ≠ (0, 0) →
            getCellType (placeTower corridor 0 0).1 cx cy
            = getCellType corridor cx cy) ∧
  pathCache (placeTower corridor 0 0).1 = ∅ ∧
  all_connected (placeTower corridor 0 0).1.
Proof.
  apply (placeTower_keeps_spawns_connected corridor 0 0).
  vm_compute. reflexivity.
Defined.

(** X8. [removeTower(x, y)] returns true exactly when (x, y) is in bounds
    and the cell holds a tower; otherwise it changes nothing.  Removing a
    tower right after [placeTower(x, y)] placed it succeeds and restores
    the grid as it was before the placement. *)
Theorem removeTower_undoes_placeTower (s : MapSystem) (x y : Z) :
  ((removeTower s x y).2 = true ↔
   isValidGridCoords s x y = true ∧ getCellType s x y = Some TOWER) ∧
  ((removeTower s x y).2 = false → (removeTower s x y).1 = s) ∧
  ((placeTower s x y).2 = true →
   (removeTower (placeTower s x y).1 x y).2 = true ∧
   grid (removeTower (placeTower s x y).1 x y).1 = grid s).
Proof.
  split; [|split].
  - unfold removeTower, getCellType.
    destruct (isValidGridCoords s x y); simpl; [|split; [done|by intros []]].
    destruct (cell_is _ 1) eqn:Hc; simpl.
    + apply cell_is_true in Hc. by rewrite Hc.
    + split; [done|]. intros [_ Hs]. rewrite Hs in Hc. discriminate.
  - unfold removeTower. by destruct (_ && _).
  - intros Hp.
    assert ((canPlaceTower s x y).2 = true) as Hok.
    { unfold placeTower in Hp. by destruct (canPlaceTower s x y) as [s1 []]. }
    pose proof (placeTower_terrain s x y Hok) as (Hw&Hh&Hg&_).
    pose proof (proj1 (canPlaceTower_walks s x y) Hok) as (Hv & Hc & _).
    unfold getCellType in Hc. rewrite Hv in Hc.
    set (s' := (placeTower s x y).1) in *.
    assert (isValidGridCoords s' x y = true) as Hv'.
    { unfold isValidGridCoords in *. by rewrite Hw, Hh. }
    assert (cell_at (grid s') x y = Some 1) as Hc'.
    { rewrite Hg. simpl. apply cell_at_write_eq. by rewrite Hc. }
    unfold removeTower. rewrite Hv', Hc'. simpl.
    split; [done|]. rewrite setCellType_valid by done. simpl.
    rewrite Hg. simpl. by apply write_cell_revert.
Qed.

Lemma removeTower_undoes_placeTower_witness :
  (removeTower corridor 1 0).1 = corridor ∧
  (removeTower (placeTower corridor 0 0).1 0 0).2 = true ∧
  grid (removeTower (placeTower corridor 0 0).1 0 0).1 = grid corridor.
Proof.
  split.
  - apply (removeTower_undoes_placeTower corridor 1 0). reflexivity.
  - apply (removeTower_undoes_placeTower corridor 0 0).
    vm_compute. reflexivity.
Defined.

(** ** Towers never cut a spawn off *)

Lemma all_connected_terrain s s' :
  same_terrain s s' → all_connected s → all_connected s'.
Proof.
  intros Ht (pb & Hpb & Hall).
  pose proof Ht as (_&_&_&Hpb'&Hsp).
  exists pb. split; [by rewrite Hpb'|].
  intros sp Hin. rewrite Hsp in Hin.
  by apply (connected_terrain s s'), Hall.
Qed.

Lemma placeTower_all_connected (s : MapSystem) (x y : Z) :
  (canPlaceTower s x y).2 = true → all_connected (placeTower s x y).1.
Proof.
  intros Hok.
  pose proof (proj1 (canPlaceTower_walks s x y) Hok)
    as (_ & _ & pb & Hpb & Hall).
  apply (all_connected_terrain (tower_at s x y));
    [by apply placeTower_terrain|].
  by exists pb.
Qed.

Lemma is_walk_mono (s s' : MapSystem) (p : list (Z * Z)) :
  (∀ x y, isCellPassable s x y true = true →
          isCellPassable s' x y true = true) →
  is_walk s p = true → is_walk s' p = true.
Proof.
  intros Hmono. induction p as [|a [|b q] IH]; [done..|].
  change (is_walk s (a :: b :: q))
    with (bool_decide (b ∈ adjacent a) && isCellPassable s b.1 b.2 true
          && is_walk s (b :: q)).
  change (is_walk s' (a :: b :: q))
    with (bool_decide (b ∈ adjacent a) && isCellPassable s' b.1 b.2 true
          && is_walk s' (b :: q)).
  rewrite !andb_true_iff. intros [[Hadj Hp] Hw].
  repeat split; [done | by apply Hmono | by apply IH].
Qed.

(** Emptying a cell takes no passable cell away. *)
Lemma setCellType_empty_passable (s : MapSystem) (x y a b : Z) :
  isValidGridCoords s x y = true → is_Some (cell_at (grid s) x y) →
  isCellPassable s a b true = true →
  isCellPassable (setCellType s x y 0) a b true = true.
Proof.
  intros Hv Hs. rewrite setCellType_valid by done.
  unfold isCellPassable.
  change (isValidGridCoords (invalidatePathCache _) a b)
    with (isValidGridCoords s a b).
  cbn [grid invalidatePathCache set_pathCache set_grid].
  destruct (isValidGridCoords s a b) eqn:Hab; simpl; [|done].
  destruct (decide ((a, b) = (x, y))) as [[= -> ->]|Hne].
  - by rewrite cell_at_write_eq.
  - by rewrite cell_at_write_ne by (by apply (valid_index_ne s)).
Qed.

Lemma removeTower_all_connected (s : MapSystem) (x y : Z) :
  all_connected s → all_connected (removeTower s x y).1.
Proof.
  intros (pb & Hpb & Hall). unfold removeTower.
  destruct (isValidGridCoords s x y) eqn:Hv; simpl; [|by exists pb].
  destruct (cell_is _ 1) eqn:Hc; simpl; [|by exists pb].
  apply cell_is_true in Hc.
  exists pb. rewrite setCellType_valid by done. simpl. split; [done|].
  intros sp Hsp. destruct (Hall sp Hsp) as (p & Hw & Hh & Hl).
  exists p. split; [|done].
  eapply (is_walk_mono s); [|done].
  intros a b Hab.
  pose proof (setCellType_empty_passable s x y a b Hv) as Hm.
  rewrite setCellType_valid in Hm by done.
  apply Hm; [by rewrite Hc | done].
Qed.

Lemma tower_call_all_connected (s : MapSystem) (c : call) :
  tower_call c → all_connected s → all_connected (do_call s c).
Proof.
  intros Hc Hall. destruct c; simpl in *; try done.
  - destruct ((canPlaceTower s x y).2) eqn:Hok.
    + by apply placeTower_all_connected.
    + apply (all_connected_terrain s); [|done].
      unfold placeTower.
      pose proof (canPlaceTower_same_terrain s x y) as Ht.
      destruct (canPlaceTower s x y) as [s1 ok]. simpl in *. by subst ok.
  - by apply removeTower_all_connected.
  - apply (all_connected_terrain s); [|done].
    apply canPlaceTower_same_terrain.
  - apply (all_connected_terrain s); [|done].
    apply findPath_same_terrain.
Qed.

(** X9. Once a base is registered and enemies can walk to it from every
    registered spawn, no sequence of [placeTower], [removeTower],
    [canPlaceTower] and [findPath] calls changes that: after every such
    sequence every spawn still has a walk to the base. *)
Theorem towers_never_cut_spawns_off (s : MapSystem) (cs : list call) :
  all_connected s → Forall tower_call cs → all_connected (do_calls s cs).
Proof.
  unfold do_calls. revert s.
  induction cs as [|c cs IH]; intros s Hall Hcs; simpl; [done|].
  apply Forall_cons in Hcs as [Hc Hcs].
  apply IH; [by apply tower_call_all_connected | done].
Qed.

Lemma corridor_all_connected : all_connected corridor.
Proof.
  exists (2, 1). split; [reflexivity|].
  intros sp Hsp. change (enemySpawns corridor) with [(0, 1)] in Hsp.
  apply list_elem_of_singleton in Hsp as ->.
  exists [(0, 1); (1, 1); (2, 1)]. by repeat split.
Qed.

Lemma towers_never_cut_spawns_off_witness :
  all_connected
    (do_calls corridor
       [PlaceTower 0 0; PlaceTower 1 1; RemoveTower 0 0; PlaceTower 2 2;
        FindPath 0 1 2 1 false; CanPlaceTower 1 1]).
Proof.
  apply (towers_never_cut_spawns_off corridor);
    [apply corridor_all_connected | repeat constructor].
Defined.

(** ** The cache, key by key *)

(** X10. Two different pairs of endpoints never share a cache key, so a
    [findPath] call leaves the cache entry of every other pair as it
    was. *)
Theorem findPath_keeps_other_entries (s : MapSystem)
    (sx sy ex ey sx' sy' ex' ey' : Z) (b : bool) :
  (sx', sy', ex', ey') ≠ (sx, sy, ex, ey) →
  cacheKey sx' sy' ex' ey' ≠ cacheKey sx sy ex ey ∧
  pathCache (findPath s sx sy ex ey b).1 !! cacheKey sx' sy' ex' ey'
  = pathCache s !! cacheKey sx' sy' ex' ey'.
Proof.
  intros Hne.
  assert (cacheKey sx' sy' ex' ey' ≠ cacheKey sx sy ex ey) as Hk.
  { intros (->&->&->&->)%cacheKey_inj. by apply Hne. }
  split; [done|]. unfold findPath.
  destruct (if b then None else pathCache s !! cacheKey sx sy ex ey);
    simpl; [done|].
  by rewrite lookup_insert_ne.
Qed.

Lemma findPath_keeps_other_entries_witness :
  cacheKey 1 12 0 0 ≠ cacheKey 11 2 0 0 ∧
  pathCache (findPath (findPath corridor 1 12 0 0 false).1 11 2 0 0 true).1
    !! cacheKey 1 12 0 0
  = pathCache (findPath corridor 1 12 0 0 false).1 !! cacheKey 1 12 0 0.
Proof.
  apply (findPath_keeps_other_entries
           (findPath corridor 1 12 0 0 false).1 11 2 0 0 1 12 0 0 true).
  discriminate.
Defined.

(** ** The shape of the grid and the registry *)


Lemma setCellType_dims (s : MapSystem) (x y t : Z) :
  gridWidth (setCellType s x y t) = gridWidth s ∧
  gridHeight (setCellType s x y t) = gridHeight s ∧
  playerBase (setCellType s x y t) = playerBase s ∧
  enemySpawns (setCellType s x y t) = enemySpawns s.
Proof. unfold setCellType. by destruct (isValidGridCoords s x y). Qed.






(** ** The registry *)

Lemma do_call_registry (s : MapSystem) (c : call) :
  registry_in_bounds s → registry_in_bounds (do_call s c).
Proof.
  intros [Hb Hs].
  assert (∀ s', same_terrain s s' → registry_in_bounds s') as Hterr.
  { intros s' Ht. pose proof Ht as (_&_&_&Hpb&Hsp). split.
    - intros pb. rewrite Hpb, (isValidGridCoords_terrain s s') by done.
      apply Hb.
    - intros sp. rewrite Hsp, (isValidGridCoords_terrain s s') by done.
      apply Hs. }
  assert (∀ s' x y t, registry_in_bounds s' →
                      registry_in_bounds (setCellType s' x y t)) as Hset.
  { intros s' x y t [Hb' Hs'].
    destruct (setCellType_dims s' x y t) as (Hw&Hh&Hpb&Hsp).
    unfold registry_in_bounds, isValidGridCoords. rewrite Hw, Hh, Hpb, Hsp.
    done. }
  destruct c; simpl.
  - unfold setPlayerBase. destruct (isValidGridCoords s x y) eqn:Hv; [|done].
    apply Hset. split; simpl; [by intros pb [= <-] | done].
  - unfold addEnemySpawn. destruct (isValidGridCoords s x y) eqn:Hv; [|done].
    apply Hset. split; simpl; [done|].
    intros sp [Hsp|Hsp]%elem_of_app; [by apply Hs|].
    by apply list_elem_of_singleton in Hsp as ->.
  - unfold addObstacle. destruct (_ && _); simpl; [|done]. by apply Hset.
  - unfold placeTower.
    pose proof (canPlaceTower_same_terrain s x y) as Ht.
    destruct (canPlaceTower s x y) as [s1 ok]; simpl in *.
    pose proof (Hterr s1 Ht) as Hr1. destruct ok; simpl; [|done].
    by apply (Hset s1).
  - unfold removeTower. destruct (_ && _); simpl; [|done].
    by apply (Hset s).
  - by apply Hset.
  - apply Hterr, canPlaceTower_same_terrain.
  - apply Hterr, findPath_same_terrain.
Qed.

Lemma do_call_registry_grows (s : MapSystem) (c : call) :
  (is_Some (playerBase s) → is_Some (playerBase (do_call s c))) ∧
  enemySpawns s `prefix_of` enemySpawns (do_call s c).
Proof.
  assert (∀ s', same_terrain s s' →
                (is_Some (playerBase s) → is_Some (playerBase s')) ∧
                enemySpawns s `prefix_of` enemySpawns s') as Hterr.
  { intros s' (_&_&_&->&->). done. }
  assert (∀ s' x y t,
            (is_Some (playerBase s) → is_Some (playerBase s')) ∧
            enemySpawns s `prefix_of` enemySpawns s' →
            (is_Some (playerBase s) →
             is_Some (playerBase (setCellType s' x y t))) ∧
            enemySpawns s `prefix_of` enemySpawns (setCellType s' x y t))
    as Hset.
  { intros s' x y t.
    by destruct (setCellType_dims s' x y t) as (_&_&->&->). }
  destruct c; simpl.
  - unfold setPlayerBase. destruct (isValidGridCoords s x y); [|done].
    apply Hset. simpl. split; [by eexists | done].
  - unfold addEnemySpawn. destruct (isValidGridCoords s x y); [|done].
    apply Hset. simpl. split; [done | by apply prefix_app_r].
  - unfold addObstacle. destruct (_ && _); simpl; [|done]. by apply Hset.
  - unfold placeTower.
    pose proof (canPlaceTower_same_terrain s x y) as Ht.
    destruct (canPlaceTower s x y) as [s1 ok]; simpl in *.
    destruct ok; simpl; [|by apply Hterr].
    by apply (Hset s1), Hterr.
  - unfold removeTower. destruct (_ && _); simpl; [|done].
    by apply (Hset s).
  - by apply Hset.
  - apply Hterr, canPlaceTower_same_terrain.
  - apply Hterr, findPath_same_terrain.
Qed.

(** X12. After any sequence of calls on a fresh map, the recorded base (if
    any) and every recorded spawn are cells of the grid: registrations out
    of bounds are never recorded. *)
Theorem registry_stays_in_bounds (w h : nat) (cs : list call) :
  registry_in_bounds (do_calls (newMapSystem w h) cs).
Proof.
  unfold do_calls.
  assert (registry_in_bounds (newMapSystem w h)) as H0.
  { split; [done|]. intros sp Hsp. by apply elem_of_nil in Hsp. }
  revert H0. generalize (newMapSystem w h).
  induction cs as [|c cs IH]; intros s Hs; simpl; [done|].
  by apply IH, do_call_registry.
Qed.

(** X13. Nothing is ever unregistered: whatever is called, a recorded base
    stays recorded and the list of spawns keeps its entries, in order, as a
    prefix, even when their cells are overwritten. *)
Theorem registry_only_grows (s : MapSystem) (cs : list call) :
  (is_Some (playerBase s) → is_Some (playerBase (do_calls s cs))) ∧
  enemySpawns s `prefix_of` enemySpawns (do_calls s cs).
Proof.
  unfold do_calls. revert s.
  induction cs as [|c cs IH]; intros s; simpl; [done|].
  destruct (do_call_registry_grows s c) as [Hb Hs].
  destruct (IH (do_call s c)) as [Hb' Hs'].
  split; [by intros ?; apply Hb', Hb | by etrans].
Qed.

(** * The classes around the map *)

(** ** Pixels and cells *)












(** ** Cash *)

Lemma cash_do_call_nonneg (c : CashManager.t) (k : CashManager.call) :
  0 ≤ CashManager.cash c → 0 ≤ CashManager.cash (CashManager.do_call c k).
Proof.
  intros Hc. destruct k as [amount|amount]; simpl.
  - unfold CashManager.addCash. destruct (Z.leb_spec amount 0); simpl; lia.
  - unfold CashManager.spendCash. destruct (Z.leb_spec amount 0); [done|].
    destruct (Z.geb_spec (CashManager.cash c) amount); simpl; lia.
Qed.

(** X16. The account is never overdrawn: whatever amounts are added and
    spent, zero and negative ones included, a balance that starts at zero
    or above stays there, and [spendCash] succeeds exactly when the amount
    is positive and [hasEnoughCash] holds. *)
Theorem cash_never_negative (c : CashManager.t)
    (ks : list CashManager.call) :
  0 ≤ CashManager.cash c →
  0 ≤ CashManager.cash (foldl CashManager.do_call c ks) ∧
  ∀ amount,
    (CashManager.spendCash (foldl CashManager.do_call c ks) amount).2
    = (0 <? amount)
      && CashManager.hasEnoughCash (foldl CashManager.do_call c ks) amount.
Proof.
  intros Hc. split.
  - revert c Hc. induction ks as [|k ks IH]; intros c Hc; simpl; [done|].
    by apply IH, cash_do_call_nonneg.
  - intros amount. generalize (foldl CashManager.do_call c ks). intros c'.
    unfold CashManager.spendCash, CashManager.hasEnoughCash.
    destruct (Z.leb_spec amount 0), (Z.ltb_spec 0 amount); try lia; [done|].
    by destruct (CashManager.cash c' >=? amount).
Qed.

Lemma cash_never_negative_witness :
  0 ≤ CashManager.cash
        (foldl CashManager.do_call (CashManager.new 10)
           [CashManager.SpendCash 7; CashManager.SpendCash 7;
            CashManager.AddCash (-50); CashManager.SpendCash 3]) ∧
  ∀ amount,
    (CashManager.spendCash
       (foldl CashManager.do_call (CashManager.new 10)
          [CashManager.SpendCash 7; CashManager.SpendCash 7;
           CashManager.AddCash (-50); CashManager.SpendCash 3]) amount).2
    = (0 <? amount)
      && CashManager.hasEnoughCash
           (foldl CashManager.do_call (CashManager.new 10)
              [CashManager.SpendCash 7; CashManager.SpendCash 7;
               CashManager.AddCash (-50); CashManager.SpendCash 3]) amount.
Proof. apply (cash_never_negative (CashManager.new 10)). simpl. lia. Defined.

(** ** The base's hit points *)

Lemma base_do_call_range (b : PlayerBase.t) (k : PlayerBase.call) :
  0 ≤ PlayerBase.hp b ≤ PlayerBase.maxHp b →
  0 ≤ PlayerBase.amount_of k →
  0 ≤ PlayerBase.hp (PlayerBase.do_call b k) ≤ PlayerBase.maxHp b ∧
  PlayerBase.maxHp (PlayerBase.do_call b k) = PlayerBase.maxHp b ∧
  (PlayerBase.destructions b ≤ PlayerBase.destructions (PlayerBase.do_call b k))%nat ∧
  (PlayerBase.hp (PlayerBase.do_call b k) = 0 → 0 < PlayerBase.hp b →
   (PlayerBase.destructions b < PlayerBase.destructions (PlayerBase.do_call b k))%nat).
Proof.
  intros Hb Hk. destruct k as [amount|amount]; simpl in *.
  - unfold PlayerBase.takeDamage. simpl.
    destruct (Z.ltb_spec (PlayerBase.hp b - amount) 0); simpl.
    + repeat split; simpl; lia.
    + destruct (Z.eqb_spec (PlayerBase.hp b - amount) 0); simpl;
        repeat split; simpl; lia.
  - unfold PlayerBase.heal. simpl.
    destruct (Z.gtb_spec (PlayerBase.hp b + amount) (PlayerBase.maxHp b));
      simpl; repeat split; simpl; lia.
Qed.

(** X17. As long as the amounts are not negative, the base's hit points
    stay between 0 and [maxHp] through any sequence of [takeDamage] and
    [heal], [maxHp] never changes, and the base cannot come down to 0
    without [handleDestruction] having run. *)
Theorem base_hp_stays_in_range (b : PlayerBase.t)
    (ks : list PlayerBase.call) :
  0 ≤ PlayerBase.hp b ≤ PlayerBase.maxHp b →
  Forall (λ k, 0 ≤ PlayerBase.amount_of k) ks →
  0 ≤ PlayerBase.hp (foldl PlayerBase.do_call b ks) ≤ PlayerBase.maxHp b ∧
  PlayerBase.maxHp (foldl PlayerBase.do_call b ks) = PlayerBase.maxHp b ∧
  (PlayerBase.hp (foldl PlayerBase.do_call b ks) = 0 → 0 < PlayerBase.hp b →
   (PlayerBase.destructions b
    < PlayerBase.destructions (foldl PlayerBase.do_call b ks))%nat).
Proof.
  intros Hb Hks.
  assert (0 ≤ PlayerBase.hp (foldl PlayerBase.do_call b ks)
            ≤ PlayerBase.maxHp b ∧
          PlayerBase.maxHp (foldl PlayerBase.do_call b ks)
            = PlayerBase.maxHp b ∧
          (PlayerBase.destructions b
           ≤ PlayerBase.destructions (foldl PlayerBase.do_call b ks))%nat ∧
          (PlayerBase.hp (foldl PlayerBase.do_call b ks) = 0 →
           0 < PlayerBase.hp b →
           (PlayerBase.destructions b
            < PlayerBase.destructions (foldl PlayerBase.do_call b ks))%nat))
    as (?&?&?&?); [|done].
  revert b Hb. induction Hks as [|k ks Hk Hks IH]; intros b Hb; simpl.
  { repeat split; lia. }
  destruct (base_do_call_range b k Hb Hk) as (Hr & Hm & Hd & Hz).
  destruct (IH (PlayerBase.do_call b k)) as (Hr' & Hm' & Hd' & Hz');
    [lia|].
  rewrite Hm in Hr', Hm'.
  split; [lia|]. split; [lia|]. split; [lia|]. intros H0 Hpos.
  destruct (decide (PlayerBase.hp (PlayerBase.do_call b k) = 0)) as [Hz0|Hnz].
  - specialize (Hz Hz0 Hpos). lia.
  - assert (0 < PlayerBase.hp (PlayerBase.do_call b k)) as Hp by lia.
    specialize (Hz' H0 Hp). lia.
Qed.

Lemma base_hp_stays_in_range_witness :
  0 ≤ PlayerBase.hp
        (foldl PlayerBase.do_call (PlayerBase.new 40 2 1 corridor 100).1
           [PlayerBase.TakeDamage 60; PlayerBase.Heal 500;
            PlayerBase.TakeDamage 130])
    ≤ PlayerBase.maxHp (PlayerBase.new 40 2 1 corridor 100).1 ∧
  PlayerBase.maxHp
    (foldl PlayerBase.do_call (PlayerBase.new 40 2 1 corridor 100).1
       [PlayerBase.TakeDamage 60; PlayerBase.Heal 500;
        PlayerBase.TakeDamage 130])
  = PlayerBase.maxHp (PlayerBase.new 40 2 1 corridor 100).1 ∧
  (PlayerBase.hp
     (foldl PlayerBase.do_call (PlayerBase.new 40 2 1 corridor 100).1
        [PlayerBase.TakeDamage 60; PlayerBase.Heal 500;
         PlayerBase.TakeDamage 130]) = 0 →
   0 < PlayerBase.hp (PlayerBase.new 40 2 1 corridor 100).1 →
   (PlayerBase.destructions (PlayerBase.new 40 2 1 corridor 100).1
    < PlayerBase.destructions
        (foldl PlayerBase.do_call (PlayerBase.new 40 2 1 corridor 100).1
           [PlayerBase.TakeDamage 60; PlayerBase.Heal 500;
            PlayerBase.TakeDamage 130]))%nat).
Proof.
  apply (base_hp_stays_in_range (PlayerBase.new 40 2 1 corridor 100).1).
  - simpl. lia.
  - repeat constructor; simpl; lia.
Defined.

(** ** An enemy's bounty *)

Lemma enemy_do_call_bounty (e : Enemies.BasicEnemy) (c : CashManager.t)
    (k : Enemies.call) :
  Enemies.cashValue (Enemies.do_call (e, c) k).1 = Enemies.cashValue e ∧
  (Enemies.isActive (Enemies.do_call (e, c) k).1 = true →
   Enemies.isActive e = true) ∧
  CashManager.cash (Enemies.do_call (e, c) k).2
  = CashManager.cash c + bounty e (Enemies.do_call (e, c) k).1.
Proof.
  unfold bounty. destruct k as [amount|amount]; simpl.
  - unfold Enemies.takeDamage.
    destruct (Enemies.isActive e) eqn:Ha; simpl.
    + destruct (Z.leb_spec (Enemies.hp e - amount) 0); simpl.
      * unfold Enemies.handleEnemyDefeated, CashManager.addCash.
        split; [done|]. split; [done|].
        destruct (Z.leb_spec (Enemies.cashValue e) 0),
          (Z.ltb_spec 0 (Enemies.cashValue e)); simpl; lia.
      * rewrite Ha. simpl. split; [done|]. split; [done|]. lia.
    + rewrite Ha. simpl. split; [done|]. split; [done|]. lia.
  - unfold Enemies.heal.
    destruct (Enemies.isActive e) eqn:Ha; simpl; rewrite ?Ha; simpl;
      (split; [done|]); (split; [done|]); lia.
Qed.

(** X18. An enemy pays its bounty once at most.  Through any sequence of
    [takeDamage] and [heal] calls the cash grows by [cashValue] if the
    enemy was alive at the start, is dead at the end and its bounty is
    positive, and by nothing otherwise; a dead enemy is never revived and
    never pays again, whatever damage it is dealt. *)
Theorem bounty_paid_once (e : Enemies.BasicEnemy) (c : CashManager.t)
    (ks : list Enemies.call) :
  (Enemies.isActive (foldl Enemies.do_call (e, c) ks).1 = true →
   Enemies.isActive e = true) ∧
  CashManager.cash (foldl Enemies.do_call (e, c) ks).2
  = CashManager.cash c + bounty e (foldl Enemies.do_call (e, c) ks).1.
Proof.
  assert (Enemies.cashValue (foldl Enemies.do_call (e, c) ks).1
            = Enemies.cashValue e ∧
          (Enemies.isActive (foldl Enemies.do_call (e, c) ks).1 = true →
           Enemies.isActive e = true) ∧
          CashManager.cash (foldl Enemies.do_call (e, c) ks).2
          = CashManager.cash c + bounty e (foldl Enemies.do_call (e, c) ks).1)
    as (_ & ? & ?); [|done].
  revert e c. induction ks as [|k ks IH]; intros e c; simpl.
  { unfold bounty. destruct (Enemies.isActive e); simpl; repeat split; lia. }
  destruct (enemy_do_call_bounty e c k) as (Hv & Ha & Hc).
  destruct (Enemies.do_call (e, c) k) as [e1 c1] eqn:Hk. simpl in *.
  destruct (IH e1 c1) as (Hv' & Ha' & Hc').
  split; [congruence|]. split; [tauto|].
  rewrite Hc', Hc. unfold bounty in *. rewrite Hv.
  destruct (Enemies.isActive e), (Enemies.isActive e1),
    (Enemies.isActive (foldl Enemies.do_call (e1, c1) ks).1),
    (0 <? Enemies.cashValue e); simpl in *;
    try lia; try (by specialize (Ha eq_refl));
    try (by specialize (Ha' eq_refl)).
Qed.

(** ** The update loops *)

Lemma update_all_snoc {A W : Type} (update : A → W → A * W) (l : list A)
    (o : A) (w : W) :
  update_all update (l ++ [o]) w
  = (((update_all update l (update o w).2).1 ++ [(update o w).1]),
     (update_all update l (update o w).2).2).
Proof.
  induction l as [|a l IH]; simpl.
  - by destruct (update o w).
  - rewrite IH. destruct (update_all update l (update o w).2) as [l' w1].
    simpl. by destruct (update a w1).
Qed.

Lemma update_all_length {A W : Type} (update : A → W → A * W) (l : list A)
    (w : W) :
  length (update_all update l w).1 = length l.
Proof.
  induction l as [|a l IH]; simpl; [done|].
  destruct (update_all update l w) as [l' w1]. simpl in *.
  destruct (update a w1). simpl. by rewrite IH.
Qed.

Lemma sweep_prefix {A W : Type} (update : A → W → A * W)
    (isActive : A → bool) (l1 : list A) : ∀ (l2 : list A) (w : W),
  sweep update isActive (length l1) (l1 ++ l2) w
  = Some (List.filter isActive (update_all update l1 w).1 ++ l2,
          (update_all update l1 w).2).
Proof.
  induction l1 as [|o l1 IH] using rev_ind; intros l2 w; [done|].
  rewrite length_app, Nat.add_comm. cbn [length Nat.add sweep].
  rewrite <- app_assoc. cbn [app].
  rewrite list_lookup_middle by done.
  rewrite update_all_snoc. destruct (update o w) as [o' w']. cbn [fst snd].
  rewrite List.filter_app. cbn [List.filter].
  replace (<[length l1:=o']> (l1 ++ o :: l2)) with (l1 ++ o' :: l2)
    by (by rewrite insert_app_r_alt, Nat.sub_diag by done).
  destruct (isActive o') eqn:Ha.
  - rewrite IH. by rewrite <- app_assoc.
  - replace (delete (length l1) (l1 ++ o' :: l2)) with (l1 ++ l2).
    + rewrite IH. by rewrite app_nil_r.
    + rewrite delete_middle. done.
Qed.

(** X19. The backwards loop with [splice] of [updateEnemies] and
    [updateMunitions] never reads past the array, updates every object
    exactly once, the last one first, and leaves those that are active
    after their update, in their order: removing while iterating skips
    nothing. *)
Theorem update_loop_sweeps {M W : Type} (update : M → W → M * W)
    (isActive : M → bool) (munitions : list M) (w : W)
    (updateEnemy : Enemies.BasicEnemy → W → Enemies.BasicEnemy * W)
    (enemies : list Enemies.BasicEnemy) :
  updateMunitions update isActive munitions w
  = Some (List.filter isActive (update_all update munitions w).1,
          (update_all update munitions w).2) ∧
  updateEnemies updateEnemy enemies w
  = Some (List.filter Enemies.isActive (update_all updateEnemy enemies w).1,
          (update_all updateEnemy enemies w).2).
Proof.
  unfold updateMunitions, updateEnemies. split.
  - rewrite <- (app_nil_r munitions) at 2.
    by rewrite sweep_prefix, app_nil_r.
  - rewrite <- (app_nil_r enemies) at 2.
    by rewrite sweep_prefix, app_nil_r.
Qed.

(** ** Targets *)




(** ** Enemies and the base *)




(** ** Placing towers from the mouse *)








(** ** Any sequence of placement events *)










(** ** The codes on the grid *)

Lemma write_cell_codes (gr : list (list Z)) (x y v : Z) :
  0 ≤ v ≤ 4 →
  Forall (Forall (λ v, 0 ≤ v ≤ 4)) gr →
  Forall (Forall (λ v, 0 ≤ v ≤ 4)) (write_cell gr x y v).
Proof.
  intros Hv Hgr. unfold write_cell.
  destruct (gr !! Z.to_nat y) as [row|] eqn:Hrow; [|done].
  apply Forall_insert; [done|]. apply Forall_insert; [|done].
  by apply (Forall_lookup_1 _ _ _ _ Hgr Hrow).
Qed.

Lemma setCellType_codes (s : MapSystem) (x y t : Z) :
  0 ≤ t ≤ 4 → codes_ok s → codes_ok (setCellType s x y t).
Proof.
  intros Ht Hs. unfold setCellType, codes_ok.
  destruct (isValidGridCoords s x y); [|done]. simpl.
  by apply write_cell_codes.
Qed.

Lemma codes_ok_terrain (s s' : MapSystem) :
  same_terrain s s' → codes_ok s → codes_ok s'.
Proof. intros (_&_&Hg&_). unfold codes_ok. by rewrite Hg. Qed.

Lemma do_call_codes (s : MapSystem) (c : call) :
  surface c → codes_ok s → codes_ok (do_call s c).
Proof.
  intros Hc Hs. destruct c; simpl; try done.
  - unfold setPlayerBase. destruct (isValidGridCoords s x y); [|done].
    by apply setCellType_codes.
  - unfold addEnemySpawn. destruct (isValidGridCoords s x y); [|done].
    by apply setCellType_codes.
  - unfold addObstacle. destruct (_ && _); simpl; [|done].
    by apply setCellType_codes.
  - unfold placeTower.
    pose proof (canPlaceTower_same_terrain s x y) as Ht.
    destruct (canPlaceTower s x y) as [s1 ok]; simpl in *.
    pose proof (codes_ok_terrain _ _ Ht Hs) as Hs1.
    destruct ok; simpl; [|done].
    by apply (setCellType_codes s1).
  - unfold removeTower. destruct (_ && _); simpl; [|done].
    by apply (setCellType_codes s).
  - eapply codes_ok_terrain; [apply canPlaceTower_same_terrain | done].
  - eapply codes_ok_terrain; [apply findPath_same_terrain | done].
Qed.

(** X24. On a map built from a fresh one through the methods other than a
    direct [setCellType], [getCellType] answers with one of the codes 0 to
    4 for every cell in bounds, and with -1 exactly for the coordinates out
    of bounds: the placement check, which writes a tower and takes it back,
    leaves no other code behind. *)
Theorem getCellType_codes (w h : nat) (cs : list call) (x y : Z) :
  Forall surface cs →
  (isValidGridCoords (do_calls (newMapSystem w h) cs) x y = true →
   ∃ v, getCellType (do_calls (newMapSystem w h) cs) x y = Some v ∧
        0 ≤ v ≤ 4) ∧
  (getCellType (do_calls (newMapSystem w h) cs) x y = Some OUT_OF_BOUNDS ↔
   isValidGridCoords (do_calls (newMapSystem w h) cs) x y = false).
Proof.
  intros Hcs.
  assert (codes_ok (do_calls (newMapSystem w h) cs)) as Hcodes.
  { unfold do_calls.
    assert (codes_ok (newMapSystem w h)) as H0.
    { unfold codes_ok. simpl. apply Forall_replicate, Forall_replicate. lia. }
    revert H0. generalize (newMapSystem w h).
    induction Hcs as [|c cs Hc Hcs IH]; intros s Hs; simpl; [done|].
    by apply IH, do_call_codes. }
  assert (grid_wf (do_calls (newMapSystem w h) cs)) as Hwf.
  { apply reachable_wf. by exists w, h, cs. }
  set (s := do_calls (newMapSystem w h) cs) in *.
  assert (isValidGridCoords s x y = true →
          ∃ v, getCellType s x y = Some v ∧ 0 ≤ v ≤ 4) as Hin.
  { intros Hv. destruct (Hwf x y Hv) as [v Hcell].
    exists v. unfold getCellType. rewrite Hv. split; [done|].
    unfold cell_at in Hcell.
    destruct (grid s !! Z.to_nat y) as [row|] eqn:Hrow; [|done].
    pose proof (Forall_lookup_1 _ _ _ _ Hcodes Hrow) as Hr.
    by apply (Forall_lookup_1 _ _ _ _ Hr Hcell). }
  split; [done|]. split.
  - intros Hg. destruct (isValidGridCoords s x y) eqn:Hv; [|done].
    destruct (Hin eq_refl) as (v & Hv' & Hr). rewrite Hg in Hv'.
    injection Hv' as <-. unfold OUT_OF_BOUNDS in Hr. lia.
  - intros Hv. unfold getCellType. by rewrite Hv.
Qed.

Lemma getCellType_codes_witness :
  (isValidGridCoords corridor 1 0 = true →
   ∃ v, getCellType corridor 1 0 = Some v ∧ 0 ≤ v ≤ 4) ∧
  (getCellType corridor 1 0 = Some OUT_OF_BOUNDS ↔
   isValidGridCoords corridor 1 0 = false).
Proof.
  apply (getCellType_codes 3 3
           [SetPlayerBase 2 1; AddEnemySpawn 0 1; AddObstacle 1 0;
            AddObstacle 1 2] 1 0).
  repeat constructor.
Defined.
